(** * Forward algorithm of the IBD hidden Markov model: [loglikelihood_cpp]

    Shallow embedding of [src/hmmloglikelihood.cpp].

    Doubles are modelled by [double]: a finite double is an exact real
    (rounding and the sign of zero are not modelled); the IEEE 754 special
    values +inf, -inf and NaN are kept, with their propagation rules, since
    [log(0.)] and a division by a zero likelihood produce them. *)

From Stdlib Require Import Reals Psatz Lia List ZArith Bool.
Import ListNotations.
Open Scope R_scope.

(** ** Doubles *)

Inductive double : Type :=
| Fin (x : R)
| PInf
| NInf
| NaN.

Definition dneg (a : double) : double :=
  match a with
  | Fin x => Fin (- x)
  | PInf => NInf
  | NInf => PInf
  | NaN => NaN
  end.

Definition dadd (a b : double) : double :=
  match a, b with
  | NaN, _ | _, NaN => NaN
  | PInf, NInf | NInf, PInf => NaN
  | PInf, _ | _, PInf => PInf
  | NInf, _ | _, NInf => NInf
  | Fin x, Fin y => Fin (x + y)
  end.

Definition dsub (a b : double) : double := dadd a (dneg b).

(** An infinity [i] scaled by a finite, nonzero [x]. *)
Definition scale_inf (x : R) (i : double) : double :=
  if Req_EM_T x 0 then NaN else if Rlt_dec 0 x then i else dneg i.

Definition dmul (a b : double) : double :=
  match a, b with
  | NaN, _ | _, NaN => NaN
  | Fin x, Fin y => Fin (x * y)
  | Fin x, i | i, Fin x => scale_inf x i
  | PInf, PInf | NInf, NInf => PInf
  | _, _ => NInf
  end.

Definition ddiv (a b : double) : double :=
  match a, b with
  | NaN, _ | _, NaN => NaN
  | Fin x, Fin y =>
      if Req_EM_T y 0 then
        (if Req_EM_T x 0 then NaN else if Rlt_dec 0 x then PInf else NInf)
      else Fin (x / y)
  | Fin _, _ => Fin 0
  | i, Fin y => if Rlt_dec y 0 then dneg i else i
  | _, _ => NaN
  end.

Definition dlog (a : double) : double :=
  match a with
  | Fin x => if Rlt_dec 0 x then Fin (ln x) else if Req_EM_T x 0 then NInf else NaN
  | PInf => PInf
  | NInf | NaN => NaN
  end.

(** ** Inputs *)

(** [IntegerMatrix Ys]: one row [(Ys(t,0), Ys(t,1))] per site. *)
Definition IntegerMatrix := list (Z * Z).

(** [NumericMatrix f]: its column count and its entries [f(i,j)]. *)
Record NumericMatrix : Type := mkNumericMatrix {
  ncol : nat;
  at_ : nat -> nat -> R
}.

(** [NumericVector gendist], read by index. *)
Definition NumericVector := nat -> R.

Definition nrow (Ys : IntegerMatrix) : nat := length Ys.

Definition Ys_row (Ys : IntegerMatrix) (idata : nat) : Z * Z :=
  nth idata Ys (0%Z, 0%Z).

(** ** Site emission evaluator *)

Definition threshold : R := 1e-20.

(** [while ((nstates < maxnstates) && (f(idata,nstates) > 1e-20)) nstates += 1;] *)
Fixpoint nstates_loop (row : nat -> R) (maxnstates fuel nstates : nat) : nat :=
  match fuel with
  | O => nstates
  | S fuel' =>
      if (nstates <? maxnstates)%nat then
        if Rlt_dec threshold (row nstates)
        then nstates_loop row maxnstates fuel' (S nstates)
        else nstates
      else nstates
  end.

Definition nstates (f : NumericMatrix) (idata : nat) : nat :=
  nstates_loop (at_ f idata) (ncol f) (ncol f) 0.

(** The factor [incr *= ...] of an observation [y] for a candidate allele [g]. *)
Definition emit_prob (nstates : nat) (epsilon : R) (y : Z) (g : nat) : R :=
  if Z.eqb y (Z.of_nat g) then 1 - IZR (Z.of_nat nstates - 1) * epsilon
  else epsilon.

(** The pair [(lk0, lk1)] computed by the two loops over [g] and [gprime]. *)
Definition site_emission (f : NumericMatrix) (idata : nat) (y : Z * Z)
    (epsilon : R) : R * R :=
  let n := nstates f idata in
  let row := at_ f idata in
  let m := emit_prob n epsilon in
  let lk0 :=
    fold_left (fun lk0 g =>
      fold_left (fun lk0 gprime =>
        lk0 + row g * row gprime * m (fst y) g * m (snd y) gprime)
      (seq 0 n) lk0)
    (seq 0 n) 0 in
  let lk1 :=
    fold_left (fun lk1 g => lk1 + row g * m (fst y) g * m (snd y) g)
      (seq 0 n) 0 in
  (lk0, lk1).

(** ** Forward recursion *)

(** Loop state: the accumulator, [current_predictive] and [current_filter]. *)
Record fstate : Type := mkState {
  loglik : double;
  pred0 : double;
  pred1 : double;
  filt0 : double;
  filt1 : double
}.

(** Entry state: [loglikelihood_value = 0.], predictive [(1-r, r)],
    and the zero-initialised [NumericVector current_filter(2)]. *)
Definition init_state (r : R) : fstate :=
  mkState (Fin 0) (Fin (1 - r)) (Fin r) (Fin 0) (Fin 0).

(** [(a01, a11)] for the distance [gd]: lines 144-146. *)
Definition transition (k r rho gd : R) : R * R :=
  let exp_ := exp (- k * rho * gd) in
  (r * (1 - exp_), r + (1 - r) * exp_).

(** Unnormalised filter [(p0 * lk0, p1 * lk1)] at site [idata]. *)
Definition unnorm_filter (Ys : IntegerMatrix) (f : NumericMatrix) (epsilon : R)
    (idata : nat) (st : fstate) : double * double :=
  let lk := site_emission f idata (Ys_row Ys idata) epsilon in
  (dmul (pred0 st) (Fin (fst lk)), dmul (pred1 st) (Fin (snd lk))).

(** [l_idata], the marginal likelihood of site [idata]. *)
Definition site_L (Ys : IntegerMatrix) (f : NumericMatrix) (epsilon : R)
    (idata : nat) (st : fstate) : double :=
  let u := unnorm_filter Ys f epsilon idata st in
  dadd (fst u) (snd u).

(** One iteration of the [for] loop over [idata]. *)
Definition site_step (k r : R) (Ys : IntegerMatrix) (f : NumericMatrix)
    (gendist : NumericVector) (epsilon rho : R) (st : fstate) (idata : nat)
    : fstate :=
  let u := unnorm_filter Ys f epsilon idata st in
  let l_idata := dadd (fst u) (snd u) in
  let ll := dadd (loglik st) (dlog l_idata) in
  if (idata <? nrow Ys - 1)%nat then
    let c0 := ddiv (fst u) l_idata in
    let c1 := ddiv (snd u) l_idata in
    let a := transition k r rho (gendist idata) in
    let p1 := dadd (dmul c0 (Fin (fst a))) (dmul c1 (Fin (snd a))) in
    mkState ll (dsub (Fin 1) p1) p1 c0 c1
  else mkState ll (pred0 st) (pred1 st) (fst u) (snd u).

(** The loop state on entry to site [t] (after sites [0 .. t-1]). *)
Definition state_before (k r : R) (Ys : IntegerMatrix) (f : NumericMatrix)
    (gendist : NumericVector) (epsilon rho : R) (t : nat) : fstate :=
  fold_left (site_step k r Ys f gendist epsilon rho) (seq 0 t) (init_state r).

Definition loglikelihood_cpp (k r : R) (Ys : IntegerMatrix) (f : NumericMatrix)
    (gendist : NumericVector) (epsilon rho : R) : double :=
  if Rlt_dec r 0 then dlog (Fin 0)
  else if Rlt_dec 1 r then dlog (Fin 0)
  else if Rlt_dec k 0 then dlog (Fin 0)
  else
    loglik (fold_left (site_step k r Ys f gendist epsilon rho)
              (seq 0 (nrow Ys)) (init_state r)).

(** ** The spec's formulas *)

(** [sum_{g < n} F g]. *)
Fixpoint Rsum (n : nat) (F : nat -> R) : R :=
  match n with
  | O => 0
  | S n' => Rsum n' F + F n'
  end.

(** The spec's observation-given-truth probability [P(y | g)]. *)
Definition spec_obs_prob (n : nat) (epsilon : R) (y : Z) (g : nat) : R :=
  if Z.eq_dec y (Z.of_nat g) then 1 - (INR n - 1) * epsilon else epsilon.

(** The spec's [lk1 = sum_g f_t[g] P(y0|g) P(y1|g)]. *)
Definition spec_lk1 (f : NumericMatrix) (idata : nat) (y : Z * Z) (epsilon : R) : R :=
  let n := nstates f idata in
  Rsum n (fun g => at_ f idata g * spec_obs_prob n epsilon (fst y) g
                   * spec_obs_prob n epsilon (snd y) g).

(** The spec's [lk0 = sum_{g,g'} f_t[g] f_t[g'] P(y0|g) P(y1|g')]. *)
Definition spec_lk0 (f : NumericMatrix) (idata : nat) (y : Z * Z) (epsilon : R) : R :=
  let n := nstates f idata in
  Rsum n (fun g => Rsum n (fun g' =>
    at_ f idata g * at_ f idata g' * spec_obs_prob n epsilon (fst y) g
    * spec_obs_prob n epsilon (snd y) g')).

(** The spec's transition probabilities [a01] and [a11]. *)
Definition spec_a01 (k r rho gd : R) : R := r * (1 - exp (- k * rho * gd)).
Definition spec_a11 (k r rho gd : R) : R := r + (1 - r) * exp (- k * rho * gd).

(** [r], [k] in the feasible range. *)
Definition feasible (k r : R) : Prop := 0 <= r <= 1 /\ 0 <= k.

(** Observation [y] lies in [[0, n)]. *)
Definition in_active_range (n : nat) (y : Z) : Prop := (0 <= y < Z.of_nat n)%Z.

(** The sum, over the sites [t < n], of [log(L_t)] along the run. *)
Definition sum_site_logs (k r : R) (Ys : IntegerMatrix) (f : NumericMatrix)
    (gendist : NumericVector) (epsilon rho : R) (n : nat) : double :=
  fold_left (fun acc t =>
    dadd acc (dlog (site_L Ys f epsilon t (state_before k r Ys f gendist epsilon rho t))))
    (seq 0 n) (Fin 0).

(** A pair of doubles that is a probability vector: finite, non-negative,
    summing to [1]. *)
Definition prob_pair (a b : double) : Prop :=
  exists p0 p1, a = Fin p0 /\ b = Fin p1 /\ 0 <= p0 /\ 0 <= p1 /\ p0 + p1 = 1.

(** Sample inputs: two biallelic sites with frequencies [(1/2, 1/2)]. *)
Definition half_f : NumericMatrix := mkNumericMatrix 2 (fun _ _ => 1 / 2).
Definition unit_gendist : NumericVector := fun _ => 1.
Definition two_sites : IntegerMatrix := [(0, 0); (0, 0)]%Z.

(** Column swap of [Ys]: the two individuals exchanged. *)
Definition swap_cols (Ys : IntegerMatrix) : IntegerMatrix :=
  map (fun y : Z * Z => (snd y, fst y)) Ys.

(** Sample site whose two observations are both outside [[0, 2)]. *)
Definition out_of_range_site : IntegerMatrix := [(-1, 5)]%Z.

(** Two sites: the first, [(0, 1)], has likelihood [0] under [r = 1] and
    [epsilon = 0]; the second is ordinary. *)
Definition zero_L_sites : IntegerMatrix := [(0, 1); (0, 0)]%Z.

(** Sample triallelic sites with frequencies [(1/3, 1/3, 1/3)]. *)
Definition third_f : NumericMatrix := mkNumericMatrix 3 (fun _ _ => 1 / 3).

(** ** Quantities for further properties of the code *)

(** [prod_{s < n} F s]. *)
Fixpoint Rprod (n : nat) (F : nat -> R) : R :=
  match n with
  | O => 1
  | S n' => Rprod n' F * F n'
  end.

(** [(lk0, lk1)] of site [t]. *)
Definition site_lk (Ys : IntegerMatrix) (f : NumericMatrix) (epsilon : R) (t : nat) : R * R :=
  site_emission f t (Ys_row Ys t) epsilon.

(** [sum_{g < nstates_t} f_t[g] m(y, g)]: one individual's marginal at site [t]. *)
Definition obs_marginal (f : NumericMatrix) (idata : nat) (epsilon : R) (y : Z) : R :=
  Rsum (nstates f idata) (fun g => at_ f idata g * emit_prob (nstates f idata) epsilon y g).

(** [(1 - r) prod_{s<t} lk0_s + r prod_{s<t} lk1_s]: the likelihood of the first
    [t] sites when the IBD state never changes. *)
Definition const_ibd_Z (r : R) (Ys : IntegerMatrix) (f : NumericMatrix) (epsilon : R)
    (t : nat) : R :=
  (1 - r) * Rprod t (fun s => fst (site_lk Ys f epsilon s))
  + r * Rprod t (fun s => snd (site_lk Ys f epsilon s)).

(** Two observations the code cannot tell apart at a site with [n] alleles:
    equal, or both outside [[0, n)]. *)
Definition obs_equiv (n : nat) (y y2 : Z) : Prop :=
  y = y2 \/ (~ in_active_range n y /\ ~ in_active_range n y2).

(** A single-allele frequency row [(1, 0, 0)], and the same row with a nonzero
    entry after the first entry below the threshold. *)
Definition single_allele_f : NumericMatrix :=
  mkNumericMatrix 3 (fun _ j => if (j =? 0)%nat then 1 else 0).
Definition single_allele_f_noise : NumericMatrix :=
  mkNumericMatrix 3 (fun _ j => if (j =? 0)%nat then 1 else if (j =? 1)%nat then 0 else 7).

(** One site, with the first observation coded [-1] or [7] (both missing). *)
Definition missing_a : IntegerMatrix := [(-1, 0)]%Z.
Definition missing_b : IntegerMatrix := [(7, 0)]%Z.

(** A log-likelihood value that is [-inf] or a finite non-positive number. *)
Definition nonpos_double (d : double) : Prop :=
  d = NInf \/ exists x, d = Fin x /\ x <= 0.

(** ** Lemmas on doubles *)

Lemma dlog_zero : dlog (Fin 0) = NInf.
Proof.
  unfold dlog. destruct (Rlt_dec 0 0); [lra|].
  destruct (Req_EM_T 0 0); [reflexivity | congruence].
Qed.

Lemma dadd_fin (x y : R) : dadd (Fin x) (Fin y) = Fin (x + y).
Proof. reflexivity. Qed.

Lemma dmul_fin (x y : R) : dmul (Fin x) (Fin y) = Fin (x * y).
Proof. reflexivity. Qed.

Lemma ddiv_fin (x y : R) : y <> 0 -> ddiv (Fin x) (Fin y) = Fin (x / y).
Proof.
  intros Hy. unfold ddiv. destruct (Req_EM_T y 0); [contradiction | reflexivity].
Qed.

Lemma dsub_fin (x y : R) : dsub (Fin x) (Fin y) = Fin (x - y).
Proof. unfold dsub, dneg, dadd, Rminus. reflexivity. Qed.

(** ** Lemmas on the loops *)

Lemma fold_left_sum (h : R -> nat -> R) (F : nat -> R) (n : nat) (a : R) :
  (forall acc g, h acc g = acc + F g) ->
  fold_left h (seq 0 n) a = a + Rsum n F.
Proof.
  intros Hh. induction n as [|n IH].
  - simpl. ring.
  - rewrite seq_S, fold_left_app. cbn [fold_left Rsum]. rewrite IH, Hh. replace (0 + n)%nat with n by lia. ring.
Qed.

Lemma nstates_loop_spec (row : nat -> R) (maxn : nat) :
  forall fuel n, (n <= maxn)%nat -> (maxn <= n + fuel)%nat ->
  (forall j, (j < n)%nat -> threshold < row j) ->
  let res := nstates_loop row maxn fuel n in
  (res <= maxn)%nat /\ (forall j, (j < res)%nat -> threshold < row j) /\
  (res = maxn \/ row res <= threshold).
Proof.
  induction fuel as [|fuel IH]; intros n Hn Hfuel Hpre; simpl.
  - split; [lia|]. split; [exact Hpre | left; lia].
  - destruct (Nat.ltb_spec n maxn) as [Hlt|Hge].
    + destruct (Rlt_dec threshold (row n)) as [Hr|Hr].
      * apply IH; [lia | lia |].
        intros j Hj. destruct (Nat.eq_dec j n) as [->|Hne]; [exact Hr|].
        apply Hpre. lia.
      * split; [lia|]. split; [exact Hpre | right; lra].
    + split; [lia|]. split; [exact Hpre | left; lia].
Qed.

Lemma nstates_spec (f : NumericMatrix) (idata : nat) :
  (nstates f idata <= ncol f)%nat /\
  (forall j, (j < nstates f idata)%nat -> threshold < at_ f idata j) /\
  (nstates f idata = ncol f \/ at_ f idata (nstates f idata) <= threshold).
Proof.
  unfold nstates. apply nstates_loop_spec; [lia | lia |].
  intros j Hj. lia.
Qed.

Lemma emit_prob_spec (n : nat) (epsilon : R) (y : Z) (g : nat) :
  emit_prob n epsilon y g = spec_obs_prob n epsilon y g.
Proof.
  unfold emit_prob, spec_obs_prob.
  destruct (Z.eq_dec y (Z.of_nat g)) as [E|E].
  - rewrite (proj2 (Z.eqb_eq _ _) E). rewrite minus_IZR, <- INR_IZR_INZ.
    reflexivity.
  - rewrite (proj2 (Z.eqb_neq _ _) E). reflexivity.
Qed.

Lemma site_emission_sums (f : NumericMatrix) (idata : nat) (y : Z * Z) (epsilon : R) :
  site_emission f idata y epsilon = (spec_lk0 f idata y epsilon, spec_lk1 f idata y epsilon).
Proof.
  unfold site_emission, spec_lk0, spec_lk1. f_equal.
  - rewrite (fold_left_sum _ (fun g => Rsum (nstates f idata) (fun g' =>
      at_ f idata g * at_ f idata g' * spec_obs_prob (nstates f idata) epsilon (fst y) g
      * spec_obs_prob (nstates f idata) epsilon (snd y) g'))); [ring|].
    intros acc g. rewrite (fold_left_sum _ (fun g' =>
      at_ f idata g * at_ f idata g' * spec_obs_prob (nstates f idata) epsilon (fst y) g
      * spec_obs_prob (nstates f idata) epsilon (snd y) g')); [reflexivity|].
    intros acc' g'. rewrite !emit_prob_spec. reflexivity.
  - rewrite (fold_left_sum _ (fun g => at_ f idata g
      * spec_obs_prob (nstates f idata) epsilon (fst y) g
      * spec_obs_prob (nstates f idata) epsilon (snd y) g)); [ring|].
    intros acc g. rewrite !emit_prob_spec. reflexivity.
Qed.

Lemma state_before_S (k r : R) Ys f gendist (epsilon rho : R) (t : nat) :
  state_before k r Ys f gendist epsilon rho (S t)
  = site_step k r Ys f gendist epsilon rho (state_before k r Ys f gendist epsilon rho t) t.
Proof. unfold state_before. rewrite seq_S, fold_left_app. reflexivity. Qed.

Lemma loglik_site_step (k r : R) Ys f gendist (epsilon rho : R) st idata :
  loglik (site_step k r Ys f gendist epsilon rho st idata)
  = dadd (loglik st) (dlog (site_L Ys f epsilon idata st)).
Proof. unfold site_step. destruct (idata <? nrow Ys - 1)%nat; reflexivity. Qed.

Lemma loglik_state_before (k r : R) Ys f gendist (epsilon rho : R) (n : nat) :
  loglik (state_before k r Ys f gendist epsilon rho n)
  = sum_site_logs k r Ys f gendist epsilon rho n.
Proof.
  induction n as [|n IH]; [reflexivity|].
  rewrite state_before_S, loglik_site_step, IH.
  unfold sum_site_logs. rewrite seq_S, fold_left_app. reflexivity.
Qed.

Lemma loglikelihood_feasible (k r : R) Ys f gendist (epsilon rho : R) :
  feasible k r ->
  loglikelihood_cpp k r Ys f gendist epsilon rho
  = loglik (state_before k r Ys f gendist epsilon rho (nrow Ys)).
Proof.
  intros [[Hr0 Hr1] Hk]. unfold loglikelihood_cpp.
  destruct (Rlt_dec r 0); [lra|]. destruct (Rlt_dec 1 r); [lra|].
  destruct (Rlt_dec k 0); [lra|]. reflexivity.
Qed.

Lemma Rsum_ext (n : nat) (F G : nat -> R) :
  (forall g, (g < n)%nat -> F g = G g) -> Rsum n F = Rsum n G.
Proof.
  induction n as [|n IH]; intros H; simpl; [reflexivity|].
  rewrite IH by (intros g Hg; apply H; lia). rewrite (H n) by lia. reflexivity.
Qed.

Lemma Rsum_plus (n : nat) (F G : nat -> R) :
  Rsum n (fun i => F i + G i) = Rsum n F + Rsum n G.
Proof. induction n as [|n IH]; simpl; [ring|]. rewrite IH. ring. Qed.

Lemma Rsum_swap (n m : nat) (F : nat -> nat -> R) :
  Rsum n (fun i => Rsum m (fun j => F i j)) = Rsum m (fun j => Rsum n (fun i => F i j)).
Proof.
  induction n as [|n IH]; simpl.
  - induction m as [|m IHm]; simpl; [reflexivity|]. rewrite <- IHm. ring.
  - rewrite IH. rewrite <- Rsum_plus. reflexivity.
Qed.

Lemma emit_prob_out_of_range (n : nat) (epsilon : R) (y : Z) (g : nat) :
  ~ in_active_range n y -> (g < n)%nat -> emit_prob n epsilon y g = epsilon.
Proof.
  intros Hy Hg. unfold emit_prob.
  destruct (Z.eqb_spec y (Z.of_nat g)) as [E|E]; [|reflexivity].
  exfalso. apply Hy. unfold in_active_range. lia.
Qed.

Lemma site_emission_swap (f : NumericMatrix) (idata : nat) (y : Z * Z) (epsilon : R) :
  site_emission f idata (snd y, fst y) epsilon = site_emission f idata y epsilon.
Proof.
  rewrite !site_emission_sums. unfold spec_lk0, spec_lk1. cbn [fst snd]. f_equal.
  - rewrite Rsum_swap. apply Rsum_ext. intros g _. apply Rsum_ext. intros g' _. ring.
  - apply Rsum_ext. intros g _. ring.
Qed.

Lemma fold_left_pointwise {A B : Type} (g h : A -> B -> A) (l : list B) (x : A) :
  (forall a b, g a b = h a b) -> fold_left g l x = fold_left h l x.
Proof.
  intros H. revert x. induction l as [|b l IH]; intros x; simpl; [reflexivity|].
  rewrite H. apply IH.
Qed.

Lemma Ys_row_swap (Ys : IntegerMatrix) (idata : nat) :
  Ys_row (swap_cols Ys) idata = (snd (Ys_row Ys idata), fst (Ys_row Ys idata)).
Proof.
  revert idata. unfold Ys_row, swap_cols.
  induction Ys as [|y Ys IH]; intros [|i]; simpl; auto.
Qed.

Lemma site_step_swap (k r : R) Ys f gendist (epsilon rho : R) st idata :
  site_step k r (swap_cols Ys) f gendist epsilon rho st idata
  = site_step k r Ys f gendist epsilon rho st idata.
Proof.
  assert (Hu : unnorm_filter (swap_cols Ys) f epsilon idata st
               = unnorm_filter Ys f epsilon idata st).
  { unfold unnorm_filter. rewrite Ys_row_swap, site_emission_swap. reflexivity. }
  unfold site_step. rewrite Hu.
  replace (nrow (swap_cols Ys)) with (nrow Ys) by (unfold nrow, swap_cols; apply eq_sym, length_map).
  reflexivity.
Qed.

Lemma Rsum_nonneg (n : nat) (F : nat -> R) :
  (forall g, (g < n)%nat -> 0 <= F g) -> 0 <= Rsum n F.
Proof.
  induction n as [|n IH]; intros H; simpl; [lra|].
  assert (0 <= Rsum n F) by (apply IH; intros g Hg; apply H; lia).
  assert (0 <= F n) by (apply H; lia). lra.
Qed.

Lemma threshold_pos : 0 < threshold.
Proof. unfold threshold. lra. Qed.

Lemma spec_obs_prob_nonneg (f : NumericMatrix) (idata : nat) (epsilon : R) (y : Z) (g : nat) :
  0 <= epsilon -> (INR (ncol f) - 1) * epsilon <= 1 ->
  0 <= spec_obs_prob (nstates f idata) epsilon y g.
Proof.
  intros He Hn. unfold spec_obs_prob.
  destruct (Z.eq_dec y (Z.of_nat g)); [|exact He].
  destruct (nstates_spec f idata) as [Hle _].
  apply le_INR in Hle. nra.
Qed.

Lemma site_emission_nonneg (f : NumericMatrix) (idata : nat) (y : Z * Z) (epsilon : R) :
  0 <= epsilon -> (INR (ncol f) - 1) * epsilon <= 1 ->
  0 <= fst (site_emission f idata y epsilon) /\ 0 <= snd (site_emission f idata y epsilon).
Proof.
  intros He Hn. rewrite site_emission_sums. cbn [fst snd].
  destruct (nstates_spec f idata) as [_ [Hpos _]].
  pose proof threshold_pos.
  pose proof (fun y g => spec_obs_prob_nonneg f idata epsilon y g He Hn) as Hm.
  split.
  - apply Rsum_nonneg. intros g Hg. apply Rsum_nonneg. intros g' Hg'.
    specialize (Hpos g Hg) as Hfg. specialize (Hpos g' Hg') as Hfg'.
    specialize (Hm (fst y) g) as Hm0. specialize (Hm (snd y) g') as Hm1.
    apply Rmult_le_pos; [apply Rmult_le_pos; [apply Rmult_le_pos|]|]; lra.
  - apply Rsum_nonneg. intros g Hg.
    specialize (Hpos g Hg) as Hfg.
    specialize (Hm (fst y) g) as Hm0. specialize (Hm (snd y) g) as Hm1.
    apply Rmult_le_pos; [apply Rmult_le_pos|]; lra.
Qed.

Lemma exp_nonpos_le_1 (x : R) : x <= 0 -> exp x <= 1.
Proof.
  intros Hx. rewrite <- exp_0. destruct (Rle_lt_or_eq_dec x 0 Hx) as [Hlt| Heq].
  - left. apply exp_increasing. exact Hlt.
  - right. rewrite Heq. reflexivity.
Qed.

(** One non-final step maps a probability-vector predictive to a
    probability-vector filter and predictive, when [L_t <> 0]. *)
Lemma site_step_normalised (k r : R) Ys f gendist (epsilon rho : R) st (t : nat) :
  feasible k r -> 0 <= epsilon -> (INR (ncol f) - 1) * epsilon <= 1 ->
  0 <= rho -> 0 <= gendist t -> (S t < nrow Ys)%nat ->
  prob_pair (pred0 st) (pred1 st) ->
  site_L Ys f epsilon t st <> Fin 0 ->
  let st' := site_step k r Ys f gendist epsilon rho st t in
  prob_pair (filt0 st') (filt1 st') /\ prob_pair (pred0 st') (pred1 st').
Proof.
  intros [[Hr0 Hr1] Hk] He Hn Hrho Hg Ht [p0 [p1 [Hp0 [Hp1 [Hq0 [Hq1 Hsum]]]]]] HL.
  destruct (site_emission_nonneg f t (Ys_row Ys t) epsilon He Hn) as [Hl0 Hl1].
  set (lk0 := fst (site_emission f t (Ys_row Ys t) epsilon)) in *.
  set (lk1 := snd (site_emission f t (Ys_row Ys t) epsilon)) in *.
  assert (HLe : site_L Ys f epsilon t st = Fin (p0 * lk0 + p1 * lk1)).
  { unfold site_L, unnorm_filter. rewrite Hp0, Hp1. reflexivity. }
  rewrite HLe in HL.
  assert (HLnz : p0 * lk0 + p1 * lk1 <> 0) by (intros E; apply HL; rewrite E; reflexivity).
  assert (HLpos : 0 < p0 * lk0 + p1 * lk1).
  { assert (0 <= p0 * lk0) by (apply Rmult_le_pos; lra).
    assert (0 <= p1 * lk1) by (apply Rmult_le_pos; lra). lra. }
  set (L := p0 * lk0 + p1 * lk1) in *.
  set (e := exp (- k * rho * gendist t)).
  assert (He0 : 0 < e) by apply exp_pos.
  assert (He1 : e <= 1).
  { apply exp_nonpos_le_1.
    assert (0 <= k * rho * gendist t) by (apply Rmult_le_pos; [apply Rmult_le_pos|]; lra).
    lra. }
  set (q0 := p0 * lk0 / L). set (q1 := p1 * lk1 / L).
  assert (Hf0 : 0 <= q0).
  { unfold q0, Rdiv. apply Rmult_le_pos; [apply Rmult_le_pos; lra|].
    left. apply Rinv_0_lt_compat. exact HLpos. }
  assert (Hf1 : 0 <= q1).
  { unfold q1, Rdiv. apply Rmult_le_pos; [apply Rmult_le_pos; lra|].
    left. apply Rinv_0_lt_compat. exact HLpos. }
  assert (Hfs : q0 + q1 = 1) by (unfold q0, q1, L; field; exact HLnz).
  assert (Ha01 : 0 <= r * (1 - e) <= 1) by (split; nra).
  assert (Ha11 : 0 <= r + (1 - r) * e <= 1) by (split; nra).
  unfold site_step.
  replace (t <? nrow Ys - 1)%nat with true by (symmetry; apply Nat.ltb_lt; lia).
  unfold unnorm_filter. cbv zeta. rewrite Hp0, Hp1. cbn [fst snd].
  fold lk0 lk1. rewrite !dmul_fin, dadd_fin. fold L.
  rewrite !ddiv_fin by exact HLnz. fold q0 q1.
  unfold transition. cbv zeta. fold e. cbn [fst snd].
  rewrite !dmul_fin, dadd_fin, dsub_fin. cbn [filt0 filt1 pred0 pred1].
  split.
  - exists q0, q1. split; [reflexivity|]. split; [reflexivity|]. auto.
  - assert (0 <= q0 * (r * (1 - e))) by (apply Rmult_le_pos; lra).
    assert (0 <= q1 * (r + (1 - r) * e)) by (apply Rmult_le_pos; lra).
    assert (q0 * (r * (1 - e)) <= q0) by nra.
    assert (q1 * (r + (1 - r) * e) <= q1) by nra.
    eexists; eexists. split; [reflexivity|]. split; [reflexivity|].
    split; [lra|]. split; [lra | ring].
Qed.

(** ** Claims *)

(** C1: [nstates_t] is the number of leading entries of [f_t] above [1e-20],
    and the site emission evaluator returns [(lk0, lk1)] with
    [lk1 = sum_g f_t[g] m(y0,g) m(y1,g)] and
    [lk0 = sum_{g,g'} f_t[g] f_t[g'] m(y0,g) m(y1,g')], where
    [m(y,g) = 1 - (nstates_t - 1) epsilon] if [y = g] and [epsilon] otherwise. *)
Theorem site_emission_correct (f : NumericMatrix) (idata : nat) (y : Z * Z) (epsilon : R) :
  let n := nstates f idata in
  ((n <= ncol f)%nat /\ (forall j, (j < n)%nat -> threshold < at_ f idata j) /\
   (n = ncol f \/ at_ f idata n <= threshold)) /\
  site_emission f idata y epsilon = (spec_lk0 f idata y epsilon, spec_lk1 f idata y epsilon).
Proof.
  split; [apply nstates_spec | apply site_emission_sums].
Qed.

(** C4: when [r < 0], [r > 1] or [k < 0], the result is [-inf], for any data. *)
Theorem infeasible_neg_inf (k r : R) (Ys : IntegerMatrix) (f : NumericMatrix)
    (gendist : NumericVector) (epsilon rho : R) :
  (r < 0 \/ 1 < r \/ k < 0) ->
  loglikelihood_cpp k r Ys f gendist epsilon rho = NInf.
Proof.
  intros H. unfold loglikelihood_cpp. rewrite dlog_zero.
  destruct (Rlt_dec r 0); [reflexivity|]. destruct (Rlt_dec 1 r); [reflexivity|].
  destruct (Rlt_dec k 0); [reflexivity|]. lra.
Qed.

Lemma infeasible_neg_inf_witness :
  (- 1 / 10 < 0 \/ 1 < - 1 / 10 \/ 1 < 0) /\
  loglikelihood_cpp 1 (- 1 / 10) two_sites half_f unit_gendist (1 / 1000) 1 = NInf.
Proof.
  split; [lra|]. apply infeasible_neg_inf. lra.
Defined.

(** C10: for feasible [(k, r)] and no sites, the result is exactly [0]. *)
Theorem empty_data_zero (k r : R) (f : NumericMatrix) (gendist : NumericVector)
    (epsilon rho : R) :
  feasible k r ->
  loglikelihood_cpp k r [] f gendist epsilon rho = Fin 0.
Proof.
  intros H. rewrite loglikelihood_feasible by exact H. reflexivity.
Qed.

Lemma empty_data_zero_witness :
  feasible 1 (1 / 2) /\ loglikelihood_cpp 1 (1 / 2) [] half_f unit_gendist (1 / 1000) 1 = Fin 0.
Proof.
  split; [unfold feasible; lra|]. apply empty_data_zero. unfold feasible; lra.
Defined.

(** C3: for feasible [(k, r)], the predictive used at site [0] is [(1 - r, r)]:
    the run starts from it, with no transition step before site [0], and
    [L_0 = (1 - r) lk0 + r lk1]. *)
Theorem initial_predictive (k r : R) (Ys : IntegerMatrix) (f : NumericMatrix)
    (gendist : NumericVector) (epsilon rho : R) :
  feasible k r ->
  let s0 := state_before k r Ys f gendist epsilon rho 0 in
  let lk := site_emission f 0 (Ys_row Ys 0) epsilon in
  pred0 s0 = Fin (1 - r) /\ pred1 s0 = Fin r /\
  site_L Ys f epsilon 0 s0 = Fin ((1 - r) * fst lk + r * snd lk) /\
  loglikelihood_cpp k r Ys f gendist epsilon rho
  = loglik (fold_left (site_step k r Ys f gendist epsilon rho) (seq 0 (nrow Ys)) s0).
Proof.
  intros H. simpl. split; [reflexivity|]. split; [reflexivity|]. split; [reflexivity|].
  rewrite loglikelihood_feasible by exact H. reflexivity.
Qed.

Lemma initial_predictive_witness :
  feasible 1 (1 / 2) /\
  let s0 := state_before 1 (1 / 2) two_sites half_f unit_gendist (1 / 1000) 1 0%nat in
  let lk := site_emission half_f 0 (Ys_row two_sites 0) (1 / 1000) in
  pred0 s0 = Fin (1 - 1 / 2) /\ pred1 s0 = Fin (1 / 2) /\
  site_L two_sites half_f (1 / 1000) 0 s0 = Fin ((1 - 1 / 2) * fst lk + 1 / 2 * snd lk) /\
  loglikelihood_cpp 1 (1 / 2) two_sites half_f unit_gendist (1 / 1000) 1
  = loglik (fold_left (site_step 1 (1 / 2) two_sites half_f unit_gendist (1 / 1000) 1)
              (seq 0 (nrow two_sites)) s0).
Proof.
  split; [unfold feasible; lra|]. apply initial_predictive. unfold feasible; lra.
Defined.

(** C2: after a non-final site [t], the predictive for site [t+1] is
    [p1' = filter0 a01 + filter1 a11] and [p0' = 1 - p1'], from the
    normalised filter [(u0 / L_t, u1 / L_t)] of site [t], with
    [a01 = r (1 - decay)], [a11 = r + (1 - r) decay],
    [decay = exp (- k rho gendist_t)]. *)
Theorem next_predictive (k r : R) (Ys : IntegerMatrix) (f : NumericMatrix)
    (gendist : NumericVector) (epsilon rho : R) (t : nat) :
  (S t < nrow Ys)%nat ->
  let s := state_before k r Ys f gendist epsilon rho t in
  let s' := state_before k r Ys f gendist epsilon rho (S t) in
  let u := unnorm_filter Ys f epsilon t s in
  let L := site_L Ys f epsilon t s in
  filt0 s' = ddiv (fst u) L /\
  filt1 s' = ddiv (snd u) L /\
  pred1 s' = dadd (dmul (filt0 s') (Fin (spec_a01 k r rho (gendist t))))
                  (dmul (filt1 s') (Fin (spec_a11 k r rho (gendist t)))) /\
  pred0 s' = dsub (Fin 1) (pred1 s').
Proof.
  intros Ht. cbv zeta. rewrite state_before_S. unfold site_step.
  replace (t <? nrow Ys - 1)%nat with true by (symmetry; apply Nat.ltb_lt; lia).
  repeat split; reflexivity.
Qed.

Lemma next_predictive_witness :
  (1 < nrow two_sites)%nat /\
  let s := state_before 1 (1 / 2) two_sites half_f unit_gendist (1 / 1000) 1 0%nat in
  let s' := state_before 1 (1 / 2) two_sites half_f unit_gendist (1 / 1000) 1 1 in
  let u := unnorm_filter two_sites half_f (1 / 1000) 0%nat s in
  let L := site_L two_sites half_f (1 / 1000) 0%nat s in
  filt0 s' = ddiv (fst u) L /\
  filt1 s' = ddiv (snd u) L /\
  pred1 s' = dadd (dmul (filt0 s') (Fin (spec_a01 1 (1 / 2) 1 (unit_gendist 0%nat))))
                  (dmul (filt1 s') (Fin (spec_a11 1 (1 / 2) 1 (unit_gendist 0%nat)))) /\
  pred0 s' = dsub (Fin 1) (pred1 s').
Proof.
  split; [simpl; lia|]. apply next_predictive. simpl; lia.
Defined.

(** C9: at the final site the normalisation and the prediction step are
    skipped: the final filter is the unnormalised [(u0, u1)] (no division by
    [L_t]) and the predictive is left as it was; the result is the sum over
    all sites of [log(L_t)]. *)
Theorem final_site_no_division (k r : R) (Ys : IntegerMatrix) (f : NumericMatrix)
    (gendist : NumericVector) (epsilon rho : R) (m : nat) :
  feasible k r ->
  nrow Ys = S m ->
  let s := state_before k r Ys f gendist epsilon rho m in
  let s' := site_step k r Ys f gendist epsilon rho s m in
  let u := unnorm_filter Ys f epsilon m s in
  filt0 s' = fst u /\ filt1 s' = snd u /\
  pred0 s' = pred0 s /\ pred1 s' = pred1 s /\
  loglik s' = dadd (loglik s) (dlog (site_L Ys f epsilon m s)) /\
  loglikelihood_cpp k r Ys f gendist epsilon rho = loglik s' /\
  loglikelihood_cpp k r Ys f gendist epsilon rho
  = sum_site_logs k r Ys f gendist epsilon rho (nrow Ys).
Proof.
  intros Hf Hn. cbv zeta.
  assert (Hlast : site_step k r Ys f gendist epsilon rho
                    (state_before k r Ys f gendist epsilon rho m) m
                  = mkState (dadd (loglik (state_before k r Ys f gendist epsilon rho m))
                                  (dlog (site_L Ys f epsilon m
                                           (state_before k r Ys f gendist epsilon rho m))))
                            (pred0 (state_before k r Ys f gendist epsilon rho m))
                            (pred1 (state_before k r Ys f gendist epsilon rho m))
                            (fst (unnorm_filter Ys f epsilon m
                                    (state_before k r Ys f gendist epsilon rho m)))
                            (snd (unnorm_filter Ys f epsilon m
                                    (state_before k r Ys f gendist epsilon rho m)))).
  { unfold site_step. rewrite Hn.
    replace (m <? S m - 1)%nat with false by (symmetry; apply Nat.ltb_ge; lia).
    reflexivity. }
  rewrite Hlast. cbn [filt0 filt1 pred0 pred1 loglik].
  repeat split; try reflexivity.
  - rewrite loglikelihood_feasible by exact Hf. rewrite Hn, state_before_S, Hlast.
    reflexivity.
  - rewrite loglikelihood_feasible by exact Hf. apply loglik_state_before.
Qed.

Lemma final_site_no_division_witness :
  feasible 1 (1 / 2) /\ nrow two_sites = 2%nat /\
  let s := state_before 1 (1 / 2) two_sites half_f unit_gendist (1 / 1000) 1 1 in
  let s' := site_step 1 (1 / 2) two_sites half_f unit_gendist (1 / 1000) 1 s 1 in
  let u := unnorm_filter two_sites half_f (1 / 1000) 1 s in
  filt0 s' = fst u /\ filt1 s' = snd u /\
  pred0 s' = pred0 s /\ pred1 s' = pred1 s /\
  loglik s' = dadd (loglik s) (dlog (site_L two_sites half_f (1 / 1000) 1 s)) /\
  loglikelihood_cpp 1 (1 / 2) two_sites half_f unit_gendist (1 / 1000) 1 = loglik s' /\
  loglikelihood_cpp 1 (1 / 2) two_sites half_f unit_gendist (1 / 1000) 1
  = sum_site_logs 1 (1 / 2) two_sites half_f unit_gendist (1 / 1000) 1 (nrow two_sites).
Proof.
  split; [unfold feasible; lra|]. split; [reflexivity|].
  apply final_site_no_division; [unfold feasible; lra | reflexivity].
Defined.

(** C7: if an observation of site [t] lies outside [[0, nstates_t)], every
    factor of the emission sums for that observation is [epsilon]; no term
    uses [1 - (nstates_t - 1) epsilon] for it. *)
Theorem out_of_range_mismatch (f : NumericMatrix) (idata : nat) (Ys : IntegerMatrix)
    (epsilon : R) :
  let n := nstates f idata in
  let y := Ys_row Ys idata in
  let lk := site_emission f idata y epsilon in
  (~ in_active_range n (fst y) ->
     (forall g, (g < n)%nat -> emit_prob n epsilon (fst y) g = epsilon) /\
     fst lk = Rsum n (fun g => Rsum n (fun g' =>
                at_ f idata g * at_ f idata g' * epsilon * emit_prob n epsilon (snd y) g')) /\
     snd lk = Rsum n (fun g => at_ f idata g * epsilon * emit_prob n epsilon (snd y) g)) /\
  (~ in_active_range n (snd y) ->
     (forall g, (g < n)%nat -> emit_prob n epsilon (snd y) g = epsilon) /\
     fst lk = Rsum n (fun g => Rsum n (fun g' =>
                at_ f idata g * at_ f idata g' * emit_prob n epsilon (fst y) g * epsilon)) /\
     snd lk = Rsum n (fun g => at_ f idata g * emit_prob n epsilon (fst y) g * epsilon)).
Proof.
  cbv zeta. rewrite site_emission_sums. unfold spec_lk0, spec_lk1. cbn [fst snd].
  split; intros Hout; (split; [intros g Hg; apply emit_prob_out_of_range; assumption|]);
    split; apply Rsum_ext; intros g Hg; try apply Rsum_ext; try intros g' Hg';
    rewrite <- !emit_prob_spec; rewrite ?(emit_prob_out_of_range _ _ _ g Hout Hg);
    rewrite ?(emit_prob_out_of_range _ _ _ g' Hout Hg'); reflexivity.
Qed.

Lemma nstates_half (idata : nat) : nstates half_f idata = 2%nat.
Proof.
  unfold nstates, half_f. simpl.
  destruct (Rlt_dec threshold (1 / 2)) as [_|H]; [reflexivity|].
  unfold threshold in H. lra.
Qed.

Lemma out_of_range_mismatch_witness :
  let n := nstates half_f 0 in
  let y := Ys_row out_of_range_site 0 in
  let lk := site_emission half_f 0 y (1 / 1000) in
  ~ in_active_range n (fst y) /\ ~ in_active_range n (snd y) /\
  ((forall g, (g < n)%nat -> emit_prob n (1 / 1000) (fst y) g = 1 / 1000) /\
     fst lk = Rsum n (fun g => Rsum n (fun g' =>
                at_ half_f 0 g * at_ half_f 0 g' * (1 / 1000)
                * emit_prob n (1 / 1000) (snd y) g')) /\
     snd lk = Rsum n (fun g => at_ half_f 0 g * (1 / 1000) * emit_prob n (1 / 1000) (snd y) g)) /\
  ((forall g, (g < n)%nat -> emit_prob n (1 / 1000) (snd y) g = 1 / 1000) /\
     fst lk = Rsum n (fun g => Rsum n (fun g' =>
                at_ half_f 0 g * at_ half_f 0 g' * emit_prob n (1 / 1000) (fst y) g
                * (1 / 1000))) /\
     snd lk = Rsum n (fun g => at_ half_f 0 g * emit_prob n (1 / 1000) (fst y) g * (1 / 1000))).
Proof.
  cbv zeta.
  assert (H0 : ~ in_active_range (nstates half_f 0) (fst (Ys_row out_of_range_site 0))).
  { rewrite nstates_half. unfold in_active_range. simpl. lia. }
  assert (H1 : ~ in_active_range (nstates half_f 0) (snd (Ys_row out_of_range_site 0))).
  { rewrite nstates_half. unfold in_active_range. simpl. lia. }
  destruct (out_of_range_mismatch half_f 0 out_of_range_site (1 / 1000)) as [A B].
  split; [exact H0|]. split; [exact H1|]. split; [exact (A H0) | exact (B H1)].
Defined.

(** C8: swapping the two columns of [Ys] leaves the result unchanged. *)
Theorem swap_columns_invariant (k r : R) (Ys : IntegerMatrix) (f : NumericMatrix)
    (gendist : NumericVector) (epsilon rho : R) :
  loglikelihood_cpp k r (swap_cols Ys) f gendist epsilon rho
  = loglikelihood_cpp k r Ys f gendist epsilon rho.
Proof.
  unfold loglikelihood_cpp.
  replace (nrow (swap_cols Ys)) with (nrow Ys) by (unfold nrow, swap_cols; apply eq_sym, length_map).
  destruct (Rlt_dec r 0); [reflexivity|]. destruct (Rlt_dec 1 r); [reflexivity|].
  destruct (Rlt_dec k 0); [reflexivity|].
  f_equal. apply fold_left_pointwise. intros st idata. apply site_step_swap.
Qed.

Lemma ddiv_zero_zero (x y : R) : x = 0 -> y = 0 -> ddiv (Fin x) (Fin y) = NaN.
Proof.
  intros -> ->. unfold ddiv. destruct (Req_EM_T 0 0); [reflexivity | congruence].
Qed.

Lemma dadd_nan_r (a : double) : dadd a NaN = NaN.
Proof. destruct a; reflexivity. Qed.

(** C5 fails at an interior site: [L_0 = 0] there, the normalisation
    computes [0 / 0 = NaN], and the result is NaN, not [-inf]. *)
Lemma zero_L_interior_nan :
  loglikelihood_cpp 0 1 zero_L_sites half_f unit_gendist 0 1 = NaN.
Proof.
  rewrite loglikelihood_feasible by (unfold feasible; lra).
  change (nrow zero_L_sites) with 2%nat.
  rewrite state_before_S, loglik_site_step.
  assert (Hp : pred1 (state_before 0 1 zero_L_sites half_f unit_gendist 0 1 1) = NaN).
  { rewrite state_before_S. unfold site_step.
    change (0 <? nrow zero_L_sites - 1)%nat with true. cbv zeta. cbn [pred1].
    unfold unnorm_filter. rewrite site_emission_sums.
    change (state_before 0 1 zero_L_sites half_f unit_gendist 0 1 0) with (init_state 1).
    unfold init_state. cbn [pred0 pred1 fst snd]. rewrite !dmul_fin, dadd_fin.
    assert (H1 : spec_lk1 half_f 0 (Ys_row zero_L_sites 0) 0 = 0).
    { unfold spec_lk1. rewrite nstates_half. unfold spec_obs_prob. simpl.
      lra. }
    rewrite H1, (ddiv_zero_zero ((1 - 1) * _)) by lra.
    reflexivity. }
  unfold site_L, unnorm_filter. rewrite Hp. cbn [fst snd].
  change (dmul NaN ?x) with NaN. rewrite dadd_nan_r.
  change (dlog NaN) with NaN. apply dadd_nan_r.
Qed.

(** C6, amended: for feasible [(k, r)], [0 <= epsilon] with
    [(maxnstates - 1) epsilon <= 1], [rho >= 0], non-negative distances, and a
    nonzero [L_t] at every non-final site, the predictive at every site and
    the normalised filter at every non-final site are finite, non-negative
    and sum to [1]. *)
Theorem normalised_distributions (k r : R) (Ys : IntegerMatrix) (f : NumericMatrix)
    (gendist : NumericVector) (epsilon rho : R) :
  feasible k r -> 0 <= epsilon -> (INR (ncol f) - 1) * epsilon <= 1 ->
  0 <= rho -> (forall t, 0 <= gendist t) ->
  (forall t, (S t < nrow Ys)%nat ->
     site_L Ys f epsilon t (state_before k r Ys f gendist epsilon rho t) <> Fin 0) ->
  forall t, (t < nrow Ys)%nat ->
  prob_pair (pred0 (state_before k r Ys f gendist epsilon rho t))
            (pred1 (state_before k r Ys f gendist epsilon rho t)) /\
  ((S t < nrow Ys)%nat ->
   prob_pair (filt0 (state_before k r Ys f gendist epsilon rho (S t)))
             (filt1 (state_before k r Ys f gendist epsilon rho (S t)))).
Proof.
  intros Hf He Hn Hrho Hg HL.
  assert (Hpred : forall t, (t < nrow Ys)%nat ->
            prob_pair (pred0 (state_before k r Ys f gendist epsilon rho t))
                      (pred1 (state_before k r Ys f gendist epsilon rho t))).
  { induction t as [|t IH]; intros Ht.
    - destruct Hf as [[Hr0 Hr1] _].
      exists (1 - r), r. split; [reflexivity|]. split; [reflexivity|].
      split; [lra|]. split; [lra | ring].
    - rewrite state_before_S.
      apply (site_step_normalised k r Ys f gendist epsilon rho _ t); auto.
      apply IH. lia. }
  intros t Ht. split; [apply Hpred; exact Ht|].
  intros Ht'. rewrite state_before_S.
  apply (site_step_normalised k r Ys f gendist epsilon rho _ t); auto.
Qed.

Lemma spec_lk0_half_00 : spec_lk0 half_f 0 (0%Z, 0%Z) 0 = 1 / 4.
Proof. unfold spec_lk0. rewrite nstates_half. unfold spec_obs_prob. simpl. lra. Qed.

Lemma spec_lk1_half_00 : spec_lk1 half_f 0 (0%Z, 0%Z) 0 = 1 / 2.
Proof. unfold spec_lk1. rewrite nstates_half. unfold spec_obs_prob. simpl. lra. Qed.

Lemma normalised_distributions_witness :
  feasible 1 (1 / 2) /\ 0 <= 0 /\ (INR (ncol half_f) - 1) * 0 <= 1 /\
  0 <= 1 /\ (forall t, 0 <= unit_gendist t) /\
  (forall t, (S t < nrow two_sites)%nat ->
     site_L two_sites half_f 0 t (state_before 1 (1 / 2) two_sites half_f unit_gendist 0 1 t)
     <> Fin 0) /\
  prob_pair (pred0 (state_before 1 (1 / 2) two_sites half_f unit_gendist 0 1 0))
            (pred1 (state_before 1 (1 / 2) two_sites half_f unit_gendist 0 1 0)) /\
  ((1 < nrow two_sites)%nat ->
   prob_pair (filt0 (state_before 1 (1 / 2) two_sites half_f unit_gendist 0 1 1))
             (filt1 (state_before 1 (1 / 2) two_sites half_f unit_gendist 0 1 1))).
Proof.
  assert (Hf : feasible 1 (1 / 2)) by (unfold feasible; lra).
  assert (Hg : forall t, 0 <= unit_gendist t) by (intros t; unfold unit_gendist; lra).
  assert (Hn : (INR (ncol half_f) - 1) * 0 <= 1) by lra.
  assert (HL : forall t, (S t < nrow two_sites)%nat ->
     site_L two_sites half_f 0 t (state_before 1 (1 / 2) two_sites half_f unit_gendist 0 1 t)
     <> Fin 0).
  { intros t Ht. assert (t = 0%nat) by (simpl in Ht; lia). subst t.
    unfold site_L, unnorm_filter. rewrite site_emission_sums.
    change (Ys_row two_sites 0) with (0%Z, 0%Z).
    rewrite spec_lk0_half_00, spec_lk1_half_00. simpl.
    intros E. injection E. lra. }
  split; [exact Hf|]. split; [lra|]. split; [exact Hn|]. split; [lra|].
  split; [exact Hg|]. split; [exact HL|].
  exact (normalised_distributions 1 (1 / 2) two_sites half_f unit_gendist 0 1
           Hf (Rle_refl 0) Hn Rle_0_1 Hg HL 0 ltac:(simpl; lia)).
Defined.

Lemma nstates_third (idata : nat) : nstates third_f idata = 3%nat.
Proof.
  unfold nstates, third_f. simpl.
  destruct (Rlt_dec threshold (1 / 3)) as [_|H]; [reflexivity|].
  unfold threshold in H. lra.
Qed.

Lemma spec_lk0_third_01 : spec_lk0 third_f 0 (0%Z, 1%Z) (3 / 4) = 1 / 9.
Proof. unfold spec_lk0. rewrite nstates_third. unfold spec_obs_prob. simpl. lra. Qed.

Lemma spec_lk1_third_01 : spec_lk1 third_f 0 (0%Z, 1%Z) (3 / 4) = - 1 / 16.
Proof. unfold spec_lk1. rewrite nstates_third. unfold spec_obs_prob. simpl. lra. Qed.

(** C6 fails as stated: with [epsilon = 3/4] (in [[0, 1)]) and three alleles,
    the exact-match probability [1 - 2 epsilon] is negative, and the
    normalised filter of the non-final site [0] is [(16/7, -9/7)]. *)
Lemma negative_filter_counterexample :
  feasible 1 (1 / 2) /\ 0 <= 3 / 4 < 1 /\ (1 < nrow zero_L_sites)%nat /\
  filt0 (state_before 1 (1 / 2) zero_L_sites third_f unit_gendist (3 / 4) 1 1) = Fin (16 / 7) /\
  filt1 (state_before 1 (1 / 2) zero_L_sites third_f unit_gendist (3 / 4) 1 1) = Fin (- 9 / 7).
Proof.
  split; [unfold feasible; lra|]. split; [lra|]. split; [simpl; lia|].
  rewrite state_before_S. unfold site_step.
  change (0 <? nrow zero_L_sites - 1)%nat with true. cbv zeta. cbn [filt0 filt1].
  unfold unnorm_filter. rewrite site_emission_sums.
  change (state_before 1 (1 / 2) zero_L_sites third_f unit_gendist (3 / 4) 1 0)
    with (init_state (1 / 2)).
  change (Ys_row zero_L_sites 0) with (0%Z, 1%Z).
  rewrite spec_lk0_third_01, spec_lk1_third_01.
  unfold init_state. cbn [pred0 pred1 fst snd]. rewrite !dmul_fin, dadd_fin.
  rewrite !ddiv_fin by lra. split; f_equal; field.
Qed.

(** ** Further properties of [loglikelihood_cpp] *)

Lemma Rsum_scale (n : nat) (c : R) (F : nat -> R) :
  Rsum n (fun i => c * F i) = c * Rsum n F.
Proof. induction n as [|n IH]; simpl; [ring|]. rewrite IH. ring. Qed.

Lemma lk0_factorises (f : NumericMatrix) (idata : nat) (y : Z * Z) (epsilon : R) :
  fst (site_emission f idata y epsilon)
  = obs_marginal f idata epsilon (fst y) * obs_marginal f idata epsilon (snd y).
Proof.
  rewrite site_emission_sums. cbn [fst]. unfold spec_lk0, obs_marginal.
  rewrite Rmult_comm, <- Rsum_scale. apply Rsum_ext. intros g _.
  rewrite Rmult_comm, <- Rsum_scale. apply Rsum_ext. intros g2 _.
  rewrite !emit_prob_spec. ring.
Qed.

(** X1: [lk0] is the product of the two individuals' marginals
    [sum_g f_t[g] m(y0, g)] and [sum_g f_t[g] m(y1, g)]. *)
Theorem lk0_product_of_marginals (f : NumericMatrix) (idata : nat) (y : Z * Z)
    (epsilon : R) :
  fst (site_emission f idata y epsilon)
  = obs_marginal f idata epsilon (fst y) * obs_marginal f idata epsilon (snd y).
Proof. apply lk0_factorises. Qed.

(** X2: with [0 <= epsilon] and [(ncol f - 1) epsilon <= 1], [lk0] and
    [lk1] are non-negative. *)
Theorem emission_nonneg (f : NumericMatrix) (idata : nat) (y : Z * Z) (epsilon : R) :
  0 <= epsilon -> (INR (ncol f) - 1) * epsilon <= 1 ->
  0 <= fst (site_emission f idata y epsilon) /\ 0 <= snd (site_emission f idata y epsilon).
Proof. apply site_emission_nonneg. Qed.

Lemma emission_nonneg_witness :
  0 <= 1 / 1000 /\ (INR (ncol half_f) - 1) * (1 / 1000) <= 1 /\
  0 <= fst (site_emission half_f 0 (0%Z, 1%Z) (1 / 1000)) /\
  0 <= snd (site_emission half_f 0 (0%Z, 1%Z) (1 / 1000)).
Proof.
  assert (H1 : 0 <= 1 / 1000) by lra.
  assert (H2 : (INR (ncol half_f) - 1) * (1 / 1000) <= 1) by (simpl; lra).
  split; [exact H1|]. split; [exact H2|]. exact (emission_nonneg half_f 0 _ _ H1 H2).
Defined.

Lemma Rsum_point (m : nat) (F : nat -> R) (j : nat) :
  Rsum m (fun g => if Nat.eq_dec j g then F g else 0) = if (j <? m)%nat then F j else 0.
Proof.
  induction m as [|m IH]; simpl; [reflexivity|]. rewrite IH.
  destruct (Nat.eq_dec j m) as [->|Hne].
  - rewrite Nat.ltb_irrefl. replace (m <? S m)%nat with true by (symmetry; apply Nat.ltb_lt; lia).
    ring.
  - destruct (Nat.ltb_spec j m), (Nat.ltb_spec j (S m)); try lia; ring.
Qed.

Lemma Rsum_zero (m : nat) : Rsum m (fun _ => 0) = 0.
Proof. induction m as [|m IH]; simpl; [reflexivity|]. rewrite IH. ring. Qed.

Lemma emit_prob_exact (n : nat) (y : Z) (g : nat) :
  (0 <= y)%Z ->
  emit_prob n 0 y g = if Nat.eq_dec (Z.to_nat y) g then 1 else 0.
Proof.
  intros Hy. unfold emit_prob.
  destruct (Z.eqb_spec y (Z.of_nat g)), (Nat.eq_dec (Z.to_nat y) g); try lia; ring.
Qed.

Lemma emission_exact (f : NumericMatrix) (idata : nat) (y : Z * Z) :
  in_active_range (nstates f idata) (fst y) -> in_active_range (nstates f idata) (snd y) ->
  fst (site_emission f idata y 0)
  = at_ f idata (Z.to_nat (fst y)) * at_ f idata (Z.to_nat (snd y)) /\
  snd (site_emission f idata y 0)
  = if Z.eq_dec (fst y) (snd y) then at_ f idata (Z.to_nat (fst y)) else 0.
Proof.
  unfold in_active_range. intros H0 H1.
  assert (Hm : forall y0, (0 <= y0 < Z.of_nat (nstates f idata))%Z ->
             obs_marginal f idata 0 y0 = at_ f idata (Z.to_nat y0)).
  { intros y0 Hy0. unfold obs_marginal.
    rewrite (Rsum_ext _ _ (fun g => if Nat.eq_dec (Z.to_nat y0) g then at_ f idata g else 0)).
    - rewrite Rsum_point.
      replace (Z.to_nat y0 <? nstates f idata)%nat with true
        by (symmetry; apply Nat.ltb_lt; lia).
      reflexivity.
    - intros g _. rewrite emit_prob_exact by lia.
      destruct (Nat.eq_dec (Z.to_nat y0) g) ; ring. }
  split.
  - rewrite lk0_factorises, !Hm by lia. reflexivity.
  - rewrite site_emission_sums. cbn [snd]. unfold spec_lk1.
    destruct (Z.eq_dec (fst y) (snd y)) as [E|E].
    + rewrite (Rsum_ext _ _ (fun g => if Nat.eq_dec (Z.to_nat (fst y)) g then at_ f idata g else 0)).
      * rewrite Rsum_point.
        replace (Z.to_nat (fst y) <? nstates f idata)%nat with true
          by (symmetry; apply Nat.ltb_lt; lia).
        reflexivity.
      * intros g _. rewrite <- !emit_prob_spec, <- E, emit_prob_exact by lia.
        destruct (Nat.eq_dec (Z.to_nat (fst y)) g); ring.
    + rewrite (Rsum_ext _ _ (fun _ => 0)); [apply Rsum_zero|].
      intros g _. rewrite <- !emit_prob_spec, !emit_prob_exact by lia.
      destruct (Nat.eq_dec (Z.to_nat (fst y)) g), (Nat.eq_dec (Z.to_nat (snd y)) g);
        try ring; lia.
Qed.

(** X3: with [epsilon = 0] and both observations in [[0, nstates_t)],
    [lk0 = f_t[y0] f_t[y1]], and [lk1 = f_t[y0]] if [y0 = y1], [0] otherwise. *)
Theorem emission_without_error (f : NumericMatrix) (idata : nat) (y : Z * Z) :
  in_active_range (nstates f idata) (fst y) -> in_active_range (nstates f idata) (snd y) ->
  fst (site_emission f idata y 0)
  = at_ f idata (Z.to_nat (fst y)) * at_ f idata (Z.to_nat (snd y)) /\
  snd (site_emission f idata y 0)
  = if Z.eq_dec (fst y) (snd y) then at_ f idata (Z.to_nat (fst y)) else 0.
Proof. apply emission_exact. Qed.

Lemma emission_without_error_witness :
  in_active_range (nstates half_f 0) 0 /\ in_active_range (nstates half_f 0) 1 /\
  fst (site_emission half_f 0 (0%Z, 1%Z) 0) = at_ half_f 0 0 * at_ half_f 0 1 /\
  snd (site_emission half_f 0 (0%Z, 1%Z) 0)
  = if Z.eq_dec 0 1 then at_ half_f 0 0 else 0.
Proof.
  assert (H0 : in_active_range (nstates half_f 0) 0)
    by (rewrite nstates_half; unfold in_active_range; simpl; lia).
  assert (H1 : in_active_range (nstates half_f 0) 1)
    by (rewrite nstates_half; unfold in_active_range; simpl; lia).
  split; [exact H0|]. split; [exact H1|].
  exact (emission_without_error half_f 0 (0%Z, 1%Z) H0 H1).
Defined.

(** X4: a site whose frequency matrix has no column, or whose first
    frequency is at most [1e-20], has [nstates_t = 0] and [lk0 = lk1 = 0]. *)
Theorem no_active_allele (f : NumericMatrix) (idata : nat) (y : Z * Z) (epsilon : R) :
  (ncol f = 0%nat \/ at_ f idata 0 <= threshold) ->
  nstates f idata = 0%nat /\ site_emission f idata y epsilon = (0, 0).
Proof.
  intros H.
  assert (Hn : nstates f idata = 0%nat).
  { unfold nstates. destruct (ncol f) as [|c] eqn:Ec; [reflexivity|].
    destruct H as [H|H]; [discriminate|]. simpl.
    destruct (Rlt_dec threshold (at_ f idata 0)); [lra | reflexivity]. }
  split; [exact Hn|]. unfold site_emission. rewrite Hn. reflexivity.
Qed.

Lemma no_active_allele_witness :
  (ncol (mkNumericMatrix 2 (fun _ _ => 0)) = 0%nat \/
   at_ (mkNumericMatrix 2 (fun _ _ => 0)) 0 0 <= threshold) /\
  nstates (mkNumericMatrix 2 (fun _ _ => 0)) 0 = 0%nat /\
  site_emission (mkNumericMatrix 2 (fun _ _ => 0)) 0 (0%Z, 0%Z) (1 / 1000) = (0, 0).
Proof.
  assert (H : ncol (mkNumericMatrix 2 (fun _ _ => 0)) = 0%nat \/
              at_ (mkNumericMatrix 2 (fun _ _ => 0)) 0 0 <= threshold)
    by (right; simpl; pose proof threshold_pos; lra).
  split; [exact H|]. exact (no_active_allele _ 0 (0%Z, 0%Z) (1 / 1000) H).
Defined.

Lemma fold_left_in_ext {A B : Type} (g h : A -> B -> A) (l : list B) (x : A) :
  (forall a b, In b l -> g a b = h a b) -> fold_left g l x = fold_left h l x.
Proof.
  revert x. induction l as [|b l IH]; intros x H; simpl; [reflexivity|].
  rewrite H by (left; reflexivity). apply IH. intros a b' Hb. apply H. right. exact Hb.
Qed.

(** X6: the distance [gendist(ndata - 1)] (and any entry past it) is never read:
    two distance vectors that agree on [0 .. ndata - 2] give the same result. *)
Theorem last_gendist_unused (k r : R) (Ys : IntegerMatrix) (f : NumericMatrix)
    (gendist gendist2 : NumericVector) (epsilon rho : R) :
  (forall t, (S t < nrow Ys)%nat -> gendist2 t = gendist t) ->
  loglikelihood_cpp k r Ys f gendist2 epsilon rho
  = loglikelihood_cpp k r Ys f gendist epsilon rho.
Proof.
  intros H. unfold loglikelihood_cpp.
  destruct (Rlt_dec r 0); [reflexivity|]. destruct (Rlt_dec 1 r); [reflexivity|].
  destruct (Rlt_dec k 0); [reflexivity|].
  f_equal. apply fold_left_in_ext. intros st idata _.
  unfold site_step. destruct (Nat.ltb_spec idata (nrow Ys - 1)) as [Hlt|]; [|reflexivity].
  rewrite H by lia. reflexivity.
Qed.

Lemma last_gendist_unused_witness :
  (forall t, (S t < nrow two_sites)%nat ->
     (fun t => if (t =? 0)%nat then 1 else 5) t = unit_gendist t) /\
  loglikelihood_cpp 1 (1 / 2) two_sites half_f (fun t => if (t =? 0)%nat then 1 else 5)
    (1 / 1000) 1
  = loglikelihood_cpp 1 (1 / 2) two_sites half_f unit_gendist (1 / 1000) 1.
Proof.
  assert (H : forall t, (S t < nrow two_sites)%nat ->
     (fun t => if (t =? 0)%nat then 1 else 5) t = unit_gendist t).
  { intros t Ht. simpl in Ht. assert (t = 0%nat) by lia. subst t. reflexivity. }
  split; [exact H|]. exact (last_gendist_unused _ _ _ _ _ _ _ _ H).
Defined.

Lemma nstates_loop_ge (row : nat -> R) (maxn : nat) :
  forall fuel n, (n <= nstates_loop row maxn fuel n)%nat.
Proof.
  induction fuel as [|fuel IH]; intros n; simpl; [lia|].
  destruct (n <? maxn)%nat; [|lia]. destruct (Rlt_dec threshold (row n)); [|lia].
  specialize (IH (S n)). lia.
Qed.

Lemma nstates_loop_agree (row row2 : nat -> R) (maxn : nat) :
  forall fuel n,
  (forall j, (n <= j)%nat -> (j <= nstates_loop row maxn fuel n)%nat -> (j < maxn)%nat ->
     row2 j = row j) ->
  nstates_loop row2 maxn fuel n = nstates_loop row maxn fuel n.
Proof.
  induction fuel as [|fuel IH]; intros n H; [reflexivity|].
  cbn [nstates_loop] in *. destruct (Nat.ltb_spec n maxn) as [Hlt|]; [|reflexivity].
  assert (Hrow : row2 n = row n).
  { apply H; [lia | | exact Hlt].
    destruct (Rlt_dec threshold (row n)); [pose proof (nstates_loop_ge row maxn fuel (S n)); lia | lia]. }
  rewrite Hrow. destruct (Rlt_dec threshold (row n)) as [Hr|]; [|reflexivity].
  apply IH. intros j Hj1 Hj2 Hj3. apply H; lia.
Qed.

Lemma site_step_f_agree (k r : R) Ys (f f2 : NumericMatrix) gendist (epsilon rho : R) st idata :
  ncol f2 = ncol f ->
  (forall j, (j <= nstates f idata)%nat -> (j < ncol f)%nat -> at_ f2 idata j = at_ f idata j) ->
  site_step k r Ys f2 gendist epsilon rho st idata = site_step k r Ys f gendist epsilon rho st idata.
Proof.
  intros Hc H.
  assert (Hn : nstates f2 idata = nstates f idata).
  { unfold nstates. rewrite Hc. apply nstates_loop_agree. intros j _ Hj1 Hj2. apply H; assumption. }
  assert (He : site_emission f2 idata (Ys_row Ys idata) epsilon
               = site_emission f idata (Ys_row Ys idata) epsilon).
  { destruct (nstates_spec f idata) as [Hle _].
    rewrite !site_emission_sums. unfold spec_lk0, spec_lk1. rewrite Hn. f_equal.
    - apply Rsum_ext. intros g Hg. apply Rsum_ext. intros g2 Hg2.
      rewrite !H by lia. reflexivity.
    - apply Rsum_ext. intros g Hg. rewrite H by lia. reflexivity. }
  unfold site_step, unnorm_filter. rewrite He. reflexivity.
Qed.

(** X5: frequency entries after the first one at most [1e-20] are never read:
    two matrices with the same column count that agree on the entries
    [0 .. nstates_t] of every row give the same result. *)
Theorem trailing_frequencies_unused (k r : R) (Ys : IntegerMatrix) (f f2 : NumericMatrix)
    (gendist : NumericVector) (epsilon rho : R) :
  ncol f2 = ncol f ->
  (forall t j, (j <= nstates f t)%nat -> (j < ncol f)%nat -> at_ f2 t j = at_ f t j) ->
  loglikelihood_cpp k r Ys f2 gendist epsilon rho
  = loglikelihood_cpp k r Ys f gendist epsilon rho.
Proof.
  intros Hc H. unfold loglikelihood_cpp.
  destruct (Rlt_dec r 0); [reflexivity|]. destruct (Rlt_dec 1 r); [reflexivity|].
  destruct (Rlt_dec k 0); [reflexivity|].
  f_equal. apply fold_left_pointwise. intros st idata.
  apply site_step_f_agree; [exact Hc | apply H].
Qed.

Lemma nstates_single_allele (t : nat) : nstates single_allele_f t = 1%nat.
Proof.
  unfold nstates, single_allele_f. simpl.
  destruct (Rlt_dec threshold 1) as [_|H]; [|unfold threshold in H; lra].
  destruct (Rlt_dec threshold 0) as [H|_]; [pose proof threshold_pos; lra | reflexivity].
Qed.

Lemma trailing_frequencies_unused_witness :
  ncol single_allele_f_noise = ncol single_allele_f /\
  (forall t j, (j <= nstates single_allele_f t)%nat -> (j < ncol single_allele_f)%nat ->
     at_ single_allele_f_noise t j = at_ single_allele_f t j) /\
  loglikelihood_cpp 1 (1 / 2) two_sites single_allele_f_noise unit_gendist (1 / 1000) 1
  = loglikelihood_cpp 1 (1 / 2) two_sites single_allele_f unit_gendist (1 / 1000) 1.
Proof.
  assert (Hc : ncol single_allele_f_noise = ncol single_allele_f) by reflexivity.
  assert (H : forall t j, (j <= nstates single_allele_f t)%nat -> (j < ncol single_allele_f)%nat ->
     at_ single_allele_f_noise t j = at_ single_allele_f t j).
  { intros t j Hj _. rewrite nstates_single_allele in Hj.
    destruct j as [|[|j]]; [reflexivity | reflexivity | lia]. }
  split; [exact Hc|]. split; [exact H|].
  exact (trailing_frequencies_unused _ _ _ _ _ _ _ _ Hc H).
Defined.

Lemma emit_prob_equiv (n : nat) (epsilon : R) (y y2 : Z) (g : nat) :
  obs_equiv n y y2 -> (g < n)%nat -> emit_prob n epsilon y2 g = emit_prob n epsilon y g.
Proof.
  intros [->|[H1 H2]] Hg; [reflexivity|].
  rewrite !emit_prob_out_of_range by assumption. reflexivity.
Qed.

Lemma site_emission_equiv (f : NumericMatrix) (idata : nat) (y y2 : Z * Z) (epsilon : R) :
  obs_equiv (nstates f idata) (fst y) (fst y2) ->
  obs_equiv (nstates f idata) (snd y) (snd y2) ->
  site_emission f idata y2 epsilon = site_emission f idata y epsilon.
Proof.
  intros H0 H1. rewrite !site_emission_sums. unfold spec_lk0, spec_lk1. f_equal.
  - apply Rsum_ext. intros g Hg. apply Rsum_ext. intros g2 Hg2.
    rewrite <- !emit_prob_spec, (emit_prob_equiv _ _ _ _ g H0 Hg),
      (emit_prob_equiv _ _ _ _ g2 H1 Hg2). reflexivity.
  - apply Rsum_ext. intros g Hg.
    rewrite <- !emit_prob_spec, (emit_prob_equiv _ _ _ _ g H0 Hg),
      (emit_prob_equiv _ _ _ _ g H1 Hg). reflexivity.
Qed.

(** X7: an observation outside [[0, nstates_t)] acts as a missing-value code:
    replacing observations by others equal to them or, like them, outside
    [[0, nstates_t)] leaves the result unchanged. *)
Theorem missing_codes_interchangeable (k r : R) (Ys Ys2 : IntegerMatrix) (f : NumericMatrix)
    (gendist : NumericVector) (epsilon rho : R) :
  nrow Ys2 = nrow Ys ->
  (forall t, (t < nrow Ys)%nat ->
     obs_equiv (nstates f t) (fst (Ys_row Ys t)) (fst (Ys_row Ys2 t)) /\
     obs_equiv (nstates f t) (snd (Ys_row Ys t)) (snd (Ys_row Ys2 t))) ->
  loglikelihood_cpp k r Ys2 f gendist epsilon rho
  = loglikelihood_cpp k r Ys f gendist epsilon rho.
Proof.
  intros Hn H. unfold loglikelihood_cpp. rewrite Hn.
  destruct (Rlt_dec r 0); [reflexivity|]. destruct (Rlt_dec 1 r); [reflexivity|].
  destruct (Rlt_dec k 0); [reflexivity|].
  f_equal. apply fold_left_in_ext. intros st idata Hin. apply in_seq in Hin.
  destruct (H idata ltac:(lia)) as [H0 H1].
  unfold site_step, unnorm_filter. rewrite Hn, (site_emission_equiv _ _ _ _ _ H0 H1).
  reflexivity.
Qed.

Lemma missing_codes_interchangeable_witness :
  nrow missing_b = nrow missing_a /\
  (forall t, (t < nrow missing_a)%nat ->
     obs_equiv (nstates half_f t) (fst (Ys_row missing_a t)) (fst (Ys_row missing_b t)) /\
     obs_equiv (nstates half_f t) (snd (Ys_row missing_a t)) (snd (Ys_row missing_b t))) /\
  loglikelihood_cpp 1 (1 / 2) missing_b half_f unit_gendist (1 / 1000) 1
  = loglikelihood_cpp 1 (1 / 2) missing_a half_f unit_gendist (1 / 1000) 1.
Proof.
  assert (Hn : nrow missing_b = nrow missing_a) by reflexivity.
  assert (H : forall t, (t < nrow missing_a)%nat ->
     obs_equiv (nstates half_f t) (fst (Ys_row missing_a t)) (fst (Ys_row missing_b t)) /\
     obs_equiv (nstates half_f t) (snd (Ys_row missing_a t)) (snd (Ys_row missing_b t))).
  { intros t Ht. simpl in Ht. assert (t = 0%nat) by lia. subst t.
    rewrite nstates_half. unfold obs_equiv, in_active_range. simpl.
    split; [right; split; lia | left; reflexivity]. }
  split; [exact Hn|]. split; [exact H|].
  exact (missing_codes_interchangeable _ _ _ _ _ _ _ _ Hn H).
Defined.

Lemma dadd_zero_l (a : double) : dadd (Fin 0) a = a.
Proof. destruct a; try reflexivity. cbn. f_equal. ring. Qed.

(** X8: for feasible [(k, r)] and a single site, the result is
    [log((1 - r) lk0 + r lk1)]. *)
Theorem single_site_closed_form (k r : R) (Ys : IntegerMatrix) (f : NumericMatrix)
    (gendist : NumericVector) (epsilon rho : R) :
  feasible k r -> nrow Ys = 1%nat ->
  loglikelihood_cpp k r Ys f gendist epsilon rho
  = dlog (Fin ((1 - r) * fst (site_lk Ys f epsilon 0) + r * snd (site_lk Ys f epsilon 0))).
Proof.
  intros Hf Hn. rewrite loglikelihood_feasible by exact Hf. rewrite Hn.
  change (state_before k r Ys f gendist epsilon rho 1)
    with (site_step k r Ys f gendist epsilon rho (init_state r) 0).
  rewrite loglik_site_step. cbn [loglik init_state]. rewrite dadd_zero_l. reflexivity.
Qed.

Lemma single_site_closed_form_witness :
  feasible 1 (3 / 10) /\ nrow [(0, 0)]%Z = 1%nat /\
  loglikelihood_cpp 1 (3 / 10) [(0, 0)]%Z half_f unit_gendist 0 1
  = dlog (Fin ((1 - 3 / 10) * fst (site_lk [(0, 0)]%Z half_f 0 0)
               + 3 / 10 * snd (site_lk [(0, 0)]%Z half_f 0 0))).
Proof.
  assert (Hf : feasible 1 (3 / 10)) by (unfold feasible; lra).
  split; [exact Hf|]. split; [reflexivity|].
  exact (single_site_closed_form 1 (3 / 10) [(0, 0)]%Z half_f unit_gendist 0 1 Hf eq_refl).
Defined.

Lemma dlog_pos (x : R) : 0 < x -> dlog (Fin x) = Fin (ln x).
Proof. intros H. unfold dlog. destruct (Rlt_dec 0 x); [reflexivity | lra]. Qed.

Lemma site_L_fin Ys f (epsilon : R) (t : nat) st (p0 p1 : R) :
  pred0 st = Fin p0 -> pred1 st = Fin p1 ->
  site_L Ys f epsilon t st
  = Fin (p0 * fst (site_lk Ys f epsilon t) + p1 * snd (site_lk Ys f epsilon t)).
Proof. intros H0 H1. unfold site_L, unnorm_filter. rewrite H0, H1. reflexivity. Qed.

(** A non-final step from a finite predictive with [L_t <> 0]. *)
Lemma site_step_fin (k r : R) Ys f gendist (epsilon rho : R) st (t : nat) (p0 p1 : R) :
  (S t < nrow Ys)%nat -> pred0 st = Fin p0 -> pred1 st = Fin p1 ->
  let lk := site_lk Ys f epsilon t in
  let L := p0 * fst lk + p1 * snd lk in
  L <> 0 ->
  let a := transition k r rho (gendist t) in
  let q := p0 * fst lk / L * fst a + p1 * snd lk / L * snd a in
  pred1 (site_step k r Ys f gendist epsilon rho st t) = Fin q /\
  pred0 (site_step k r Ys f gendist epsilon rho st t) = Fin (1 - q) /\
  loglik (site_step k r Ys f gendist epsilon rho st t) = dadd (loglik st) (dlog (Fin L)).
Proof.
  intros Ht H0 H1 lk L HL a q.
  unfold site_step.
  replace (t <? nrow Ys - 1)%nat with true by (symmetry; apply Nat.ltb_lt; lia).
  unfold unnorm_filter. cbv zeta. rewrite H0, H1. cbn [fst snd].
  rewrite !dmul_fin, dadd_fin, !ddiv_fin by exact HL.
  rewrite !dmul_fin, dadd_fin, dsub_fin. cbn [pred0 pred1 loglik].
  split; [reflexivity|]. split; reflexivity.
Qed.

Lemma transition_r0 (k rho gd : R) :
  fst (transition k 0 rho gd) = 0.
Proof. unfold transition. cbn. ring. Qed.

Lemma transition_r1 (k rho gd : R) :
  fst (transition k 1 rho gd) = 1 - exp (- k * rho * gd) /\ snd (transition k 1 rho gd) = 1.
Proof. unfold transition. cbn. split; ring. Qed.

(** With [r = 0] or [r = 1], the predictive stays at the point mass on that
    state while the non-final [lk] of that state is nonzero. *)
Lemma point_mass_run (k : R) Ys f gendist (epsilon rho : R) (b : bool) :
  let r := if b then 1 else 0 in
  let lkb t := if b then snd (site_lk Ys f epsilon t) else fst (site_lk Ys f epsilon t) in
  (forall t, (S t < nrow Ys)%nat -> lkb t <> 0) ->
  forall t, (t < nrow Ys)%nat ->
  pred0 (state_before k r Ys f gendist epsilon rho t) = Fin (1 - r) /\
  pred1 (state_before k r Ys f gendist epsilon rho t) = Fin r.
Proof.
  intros r lkb H. induction t as [|t IH]; intros Ht; [split; reflexivity|].
  destruct (IH ltac:(lia)) as [H0 H1]. rewrite state_before_S.
  assert (HL : (1 - r) * fst (site_lk Ys f epsilon t) + r * snd (site_lk Ys f epsilon t) <> 0).
  { specialize (H t Ht). unfold lkb in H. unfold r.
    destruct b; intros E; apply H; lra. }
  destruct (site_step_fin k r Ys f gendist epsilon rho _ t _ _ Ht H0 H1 HL) as [E1 [E0 _]].
  rewrite E0, E1. unfold r in *. destruct b.
  - destruct (transition_r1 k rho (gendist t)) as [A0 A1]. rewrite A0, A1.
    split; f_equal; field; intros E; apply HL; lra.
  - rewrite transition_r0. split; f_equal; field; intros E; apply HL; lra.
Qed.

Lemma point_mass_loglik (k : R) Ys f gendist (epsilon rho : R) (b : bool) :
  let r := if b then 1 else 0 in
  let lkb t := if b then snd (site_lk Ys f epsilon t) else fst (site_lk Ys f epsilon t) in
  0 <= k ->
  (forall t, (S t < nrow Ys)%nat -> lkb t <> 0) ->
  loglikelihood_cpp k r Ys f gendist epsilon rho
  = fold_left (fun acc t => dadd acc (dlog (Fin (lkb t)))) (seq 0 (nrow Ys)) (Fin 0).
Proof.
  intros r lkb Hk H.
  rewrite loglikelihood_feasible by (unfold feasible, r; destruct b; lra).
  rewrite loglik_state_before. unfold sum_site_logs.
  apply fold_left_in_ext. intros acc t Hin. apply in_seq in Hin.
  destruct (point_mass_run k Ys f gendist epsilon rho b H t ltac:(lia)) as [H0 H1].
  rewrite (site_L_fin _ _ _ _ _ _ _ H0 H1). unfold lkb, r.
  destruct b; do 3 f_equal; ring.
Qed.

(** X10: with [r = 0] (never IBD), if [lk0_t <> 0] at every non-final site,
    the result is [sum_t log(lk0_t)]: the sites are independent. *)
Theorem r0_independent_sites (k : R) (Ys : IntegerMatrix) (f : NumericMatrix)
    (gendist : NumericVector) (epsilon rho : R) :
  0 <= k ->
  (forall t, (S t < nrow Ys)%nat -> fst (site_lk Ys f epsilon t) <> 0) ->
  loglikelihood_cpp k 0 Ys f gendist epsilon rho
  = fold_left (fun acc t => dadd acc (dlog (Fin (fst (site_lk Ys f epsilon t)))))
      (seq 0 (nrow Ys)) (Fin 0).
Proof. apply (point_mass_loglik k Ys f gendist epsilon rho false). Qed.

(** X11: with [r = 1] (always IBD), if [lk1_t <> 0] at every non-final site,
    the result is [sum_t log(lk1_t)]. *)
Theorem r1_shared_sites (k : R) (Ys : IntegerMatrix) (f : NumericMatrix)
    (gendist : NumericVector) (epsilon rho : R) :
  0 <= k ->
  (forall t, (S t < nrow Ys)%nat -> snd (site_lk Ys f epsilon t) <> 0) ->
  loglikelihood_cpp k 1 Ys f gendist epsilon rho
  = fold_left (fun acc t => dadd acc (dlog (Fin (snd (site_lk Ys f epsilon t)))))
      (seq 0 (nrow Ys)) (Fin 0).
Proof. apply (point_mass_loglik k Ys f gendist epsilon rho true). Qed.

Lemma site_lk_half_00 (t : nat) :
  site_lk two_sites half_f 0 t = (1 / 4, 1 / 2).
Proof.
  unfold site_lk. rewrite site_emission_sums.
  replace (Ys_row two_sites t) with (0%Z, 0%Z)
    by (destruct t as [|[|t]]; [reflexivity | reflexivity | destruct t; reflexivity]).
  unfold spec_lk0, spec_lk1. rewrite nstates_half. unfold spec_obs_prob. simpl.
  f_equal; lra.
Qed.

Lemma r0_independent_sites_witness :
  0 <= 1 /\ (forall t, (S t < nrow two_sites)%nat -> fst (site_lk two_sites half_f 0 t) <> 0) /\
  loglikelihood_cpp 1 0 two_sites half_f unit_gendist 0 1
  = fold_left (fun acc t => dadd acc (dlog (Fin (fst (site_lk two_sites half_f 0 t)))))
      (seq 0 (nrow two_sites)) (Fin 0).
Proof.
  assert (H : forall t, (S t < nrow two_sites)%nat -> fst (site_lk two_sites half_f 0 t) <> 0)
    by (intros t _; rewrite site_lk_half_00; simpl; lra).
  split; [lra|]. split; [exact H|].
  exact (r0_independent_sites 1 two_sites half_f unit_gendist 0 1 Rle_0_1 H).
Defined.

Lemma r1_shared_sites_witness :
  0 <= 1 /\ (forall t, (S t < nrow two_sites)%nat -> snd (site_lk two_sites half_f 0 t) <> 0) /\
  loglikelihood_cpp 1 1 two_sites half_f unit_gendist 0 1
  = fold_left (fun acc t => dadd acc (dlog (Fin (snd (site_lk two_sites half_f 0 t)))))
      (seq 0 (nrow two_sites)) (Fin 0).
Proof.
  assert (H : forall t, (S t < nrow two_sites)%nat -> snd (site_lk two_sites half_f 0 t) <> 0)
    by (intros t _; rewrite site_lk_half_00; simpl; lra).
  split; [lra|]. split; [exact H|].
  exact (r1_shared_sites 1 two_sites half_f unit_gendist 0 1 Rle_0_1 H).
Defined.

Lemma transition_k0 (r rho gd : R) :
  fst (transition 0 r rho gd) = 0 /\ snd (transition 0 r rho gd) = 1.
Proof.
  unfold transition. cbn. replace (- 0 * rho * gd) with 0 by ring. rewrite exp_0.
  split; ring.
Qed.

Lemma const_ibd_Z_S (r : R) Ys f (epsilon : R) (t : nat) :
  const_ibd_Z r Ys f epsilon (S t)
  = (1 - r) * Rprod t (fun s => fst (site_lk Ys f epsilon s)) * fst (site_lk Ys f epsilon t)
    + r * Rprod t (fun s => snd (site_lk Ys f epsilon s)) * snd (site_lk Ys f epsilon t).
Proof. unfold const_ibd_Z. cbn [Rprod]. ring. Qed.

(** With [k = 0] the IBD state never changes: the loop state on entry to site
    [t] holds [log Z_t] and the posterior of the constant state. *)
Lemma k0_run (r : R) Ys f gendist (epsilon rho : R) :
  0 <= r <= 1 ->
  (forall t, (t <= nrow Ys)%nat -> 0 < const_ibd_Z r Ys f epsilon t) ->
  forall t, (t < nrow Ys)%nat ->
  exists x0 x1,
    pred0 (state_before 0 r Ys f gendist epsilon rho t) = Fin x0 /\
    pred1 (state_before 0 r Ys f gendist epsilon rho t) = Fin x1 /\
    x0 * const_ibd_Z r Ys f epsilon t = (1 - r) * Rprod t (fun s => fst (site_lk Ys f epsilon s)) /\
    x1 * const_ibd_Z r Ys f epsilon t = r * Rprod t (fun s => snd (site_lk Ys f epsilon s)) /\
    loglik (state_before 0 r Ys f gendist epsilon rho t) = Fin (ln (const_ibd_Z r Ys f epsilon t)).
Proof.
  intros Hr HZ. induction t as [|t IH]; intros Ht.
  - exists (1 - r), r. unfold const_ibd_Z. cbn [Rprod].
    replace ((1 - r) * 1 + r * 1) with 1 by ring. rewrite ln_1.
    repeat split; ring.
  - destruct (IH ltac:(lia)) as [x0 [x1 [H0 [H1 [E0 [E1 Hll]]]]]].
    pose proof (HZ t ltac:(lia)) as Zt. pose proof (HZ (S t) ltac:(lia)) as ZSt.
    rewrite const_ibd_Z_S in ZSt |- *.
    set (l0 := fst (site_lk Ys f epsilon t)) in *.
    set (l1 := snd (site_lk Ys f epsilon t)) in *.
    set (P0 := Rprod t (fun s => fst (site_lk Ys f epsilon s))) in *.
    set (P1 := Rprod t (fun s => snd (site_lk Ys f epsilon s))) in *.
    set (Z := const_ibd_Z r Ys f epsilon t) in *.
    assert (HLZ : (x0 * l0 + x1 * l1) * Z = (1 - r) * P0 * l0 + r * P1 * l1).
    { rewrite Rmult_plus_distr_r.
      replace (x0 * l0 * Z) with (x0 * Z * l0) by ring.
      replace (x1 * l1 * Z) with (x1 * Z * l1) by ring. rewrite E0, E1. ring. }
    assert (HLpos : 0 < x0 * l0 + x1 * l1).
    { apply (Rmult_lt_reg_r Z); [exact Zt|]. rewrite HLZ. lra. }
    assert (HL : x0 * l0 + x1 * l1 <> 0) by lra.
    destruct (site_step_fin 0 r Ys f gendist epsilon rho _ t x0 x1 Ht H0 H1 HL)
      as [F1 [F0 Fll]].
    destruct (transition_k0 r rho (gendist t)) as [A0 A1].
    rewrite state_before_S, F0, F1, Fll, A0, A1, Hll, dlog_pos by exact HLpos.
    fold l0 l1.
    eexists; eexists. split; [reflexivity|]. split; [reflexivity|].
    split; [|split].
    + cbn [Rprod]. fold P0 l0. rewrite <- HLZ.
      replace ((1 - r) * (P0 * l0)) with (x0 * Z * l0) by (rewrite E0; ring).
      field. exact HL.
    + cbn [Rprod]. fold P1 l1. rewrite <- HLZ.
      replace (r * (P1 * l1)) with (x1 * Z * l1) by (rewrite E1; ring).
      field. exact HL.
    + cbn [dadd]. f_equal. rewrite <- ln_mult by assumption. f_equal. rewrite <- HLZ. ring.
Qed.

(** X9: with [k = 0] (no recombination) and [0 <= r <= 1], if every
    [Z_t = (1 - r) prod_{s<t} lk0_s + r prod_{s<t} lk1_s] for [t <= ndata] is
    positive, the result is [log Z_ndata]: a mixture of "never IBD" and
    "always IBD" over the whole sequence. *)
Theorem k0_constant_ibd (r : R) (Ys : IntegerMatrix) (f : NumericMatrix)
    (gendist : NumericVector) (epsilon rho : R) :
  0 <= r <= 1 ->
  (forall t, (t <= nrow Ys)%nat -> 0 < const_ibd_Z r Ys f epsilon t) ->
  loglikelihood_cpp 0 r Ys f gendist epsilon rho
  = Fin (ln (const_ibd_Z r Ys f epsilon (nrow Ys))).
Proof.
  intros Hr HZ. rewrite loglikelihood_feasible by (unfold feasible; lra).
  pose proof (k0_run r Ys f gendist epsilon rho Hr HZ) as KR.
  destruct (nrow Ys) as [|m] eqn:En.
  - unfold const_ibd_Z. cbn [Rprod]. replace ((1 - r) * 1 + r * 1) with 1 by ring.
    rewrite ln_1. reflexivity.
  - destruct (KR m ltac:(lia))
      as [x0 [x1 [H0 [H1 [E0 [E1 Hll]]]]]].
    pose proof (HZ m ltac:(lia)) as Zt. pose proof (HZ (S m) ltac:(lia)) as ZSt.
    rewrite state_before_S, loglik_site_step, (site_L_fin _ _ _ _ _ _ _ H0 H1), Hll.
    rewrite const_ibd_Z_S in ZSt |- *.
    set (l0 := fst (site_lk Ys f epsilon m)) in *.
    set (l1 := snd (site_lk Ys f epsilon m)) in *.
    set (Z := const_ibd_Z r Ys f epsilon m) in *.
    assert (HLZ : (x0 * l0 + x1 * l1) * Z
                  = (1 - r) * Rprod m (fun s => fst (site_lk Ys f epsilon s)) * l0
                    + r * Rprod m (fun s => snd (site_lk Ys f epsilon s)) * l1).
    { rewrite Rmult_plus_distr_r.
      replace (x0 * l0 * Z) with (x0 * Z * l0) by ring.
      replace (x1 * l1 * Z) with (x1 * Z * l1) by ring. rewrite E0, E1. ring. }
    assert (HLpos : 0 < x0 * l0 + x1 * l1).
    { apply (Rmult_lt_reg_r Z); [exact Zt|]. rewrite HLZ. lra. }
    rewrite dlog_pos by exact HLpos. cbn [dadd]. f_equal.
    rewrite <- ln_mult by assumption. f_equal. rewrite <- HLZ. ring.
Qed.

Lemma k0_constant_ibd_witness :
  0 <= 1 / 2 <= 1 /\
  (forall t, (t <= nrow two_sites)%nat -> 0 < const_ibd_Z (1 / 2) two_sites half_f 0 t) /\
  loglikelihood_cpp 0 (1 / 2) two_sites half_f unit_gendist 0 1
  = Fin (ln (const_ibd_Z (1 / 2) two_sites half_f 0 (nrow two_sites))).
Proof.
  assert (Hr : 0 <= 1 / 2 <= 1) by lra.
  assert (HZ : forall t, (t <= nrow two_sites)%nat ->
                 0 < const_ibd_Z (1 / 2) two_sites half_f 0 t).
  { intros t Ht. simpl in Ht. unfold const_ibd_Z.
    destruct t as [|[|[|t]]]; [| | |lia]; cbn [Rprod]; rewrite ?site_lk_half_00; simpl; lra. }
  split; [exact Hr|]. split; [exact HZ|].
  exact (k0_constant_ibd (1 / 2) two_sites half_f unit_gendist 0 1 Hr HZ).
Defined.

Lemma Rsum_le (n : nat) (F G : nat -> R) :
  (forall g, (g < n)%nat -> F g <= G g) -> Rsum n F <= Rsum n G.
Proof.
  induction n as [|n IH]; intros H; simpl; [lra|].
  assert (Rsum n F <= Rsum n G) by (apply IH; intros g Hg; apply H; lia).
  assert (F n <= G n) by (apply H; lia). lra.
Qed.

Lemma spec_obs_prob_le_1 (n : nat) (epsilon : R) (y : Z) (g : nat) :
  0 <= epsilon <= 1 -> (g < n)%nat -> spec_obs_prob n epsilon y g <= 1.
Proof.
  intros He Hg. unfold spec_obs_prob.
  destruct (Z.eq_dec y (Z.of_nat g)); [|lra].
  assert (1 <= INR n) by (apply (le_INR 1); lia). nra.
Qed.

(** With frequencies summing to at most [1] over the active alleles, both
    emission probabilities lie in [[0, 1]]. *)
Lemma site_emission_le_1 (f : NumericMatrix) (idata : nat) (y : Z * Z) (epsilon : R) :
  0 <= epsilon <= 1 -> (INR (ncol f) - 1) * epsilon <= 1 ->
  Rsum (nstates f idata) (at_ f idata) <= 1 ->
  fst (site_emission f idata y epsilon) <= 1 /\ snd (site_emission f idata y epsilon) <= 1.
Proof.
  intros He Hn Hs.
  destruct (nstates_spec f idata) as [_ [Hpos _]]. pose proof threshold_pos.
  assert (Hm : forall y0 g, (g < nstates f idata)%nat ->
            0 <= spec_obs_prob (nstates f idata) epsilon y0 g <= 1).
  { intros y0 g Hg. split; [apply spec_obs_prob_nonneg; lra|].
    apply spec_obs_prob_le_1; assumption. }
  assert (Hmarg : forall y0, 0 <= obs_marginal f idata epsilon y0 <= 1).
  { intros y0. unfold obs_marginal. split.
    - apply Rsum_nonneg. intros g Hg. rewrite emit_prob_spec.
      specialize (Hpos g Hg). specialize (Hm y0 g Hg). nra.
    - apply (Rle_trans _ (Rsum (nstates f idata) (at_ f idata))); [|exact Hs].
      apply Rsum_le. intros g Hg. rewrite emit_prob_spec.
      specialize (Hpos g Hg). specialize (Hm y0 g Hg). nra. }
  split.
  - rewrite lk0_factorises.
    destruct (Hmarg (fst y)), (Hmarg (snd y)). nra.
  - rewrite site_emission_sums. cbn [snd]. unfold spec_lk1.
    apply (Rle_trans _ (Rsum (nstates f idata) (at_ f idata))); [|exact Hs].
    apply Rsum_le. intros g Hg.
    specialize (Hpos g Hg). destruct (Hm (fst y) g Hg), (Hm (snd y) g Hg).
    assert (0 <= spec_obs_prob (nstates f idata) epsilon (fst y) g
                 * spec_obs_prob (nstates f idata) epsilon (snd y) g <= 1) by (split; nra).
    nra.
Qed.

Lemma dlog_unit_nonpos (x : R) : 0 <= x <= 1 -> nonpos_double (dlog (Fin x)).
Proof.
  intros [H0 H1]. destruct (Rle_lt_or_eq_dec 0 x H0) as [Hlt| Heq].
  - right. exists (ln x). split; [apply dlog_pos; exact Hlt|].
    destruct (Rle_lt_or_eq_dec x 1 H1) as [Hlt1| Heq1].
    + left. rewrite <- ln_1. apply ln_increasing; assumption.
    + right. rewrite Heq1. apply ln_1.
  - left. rewrite <- Heq. apply dlog_zero.
Qed.

Lemma dadd_nonpos (a b : double) :
  nonpos_double a -> nonpos_double b -> nonpos_double (dadd a b).
Proof.
  intros [->|[x [-> Hx]]] [->|[y [-> Hy]]]; try (left; reflexivity).
  right. exists (x + y). split; [reflexivity | lra].
Qed.

Lemma pred_prob_pair (k r : R) Ys f gendist (epsilon rho : R) :
  feasible k r -> 0 <= epsilon -> (INR (ncol f) - 1) * epsilon <= 1 ->
  0 <= rho -> (forall t, 0 <= gendist t) ->
  (forall t, (S t < nrow Ys)%nat ->
     site_L Ys f epsilon t (state_before k r Ys f gendist epsilon rho t) <> Fin 0) ->
  forall t, (t < nrow Ys)%nat ->
  prob_pair (pred0 (state_before k r Ys f gendist epsilon rho t))
            (pred1 (state_before k r Ys f gendist epsilon rho t)).
Proof.
  intros Hf He Hn Hrho Hg HL. induction t as [|t IH]; intros Ht.
  - destruct Hf as [[Hr0 Hr1] _].
    exists (1 - r), r. split; [reflexivity|]. split; [reflexivity|].
    split; [lra|]. split; [lra | ring].
  - rewrite state_before_S.
    apply (site_step_normalised k r Ys f gendist epsilon rho _ t); auto.
    apply IH. lia.
Qed.

(** X12: with feasible [(k, r)], [0 <= epsilon <= 1],
    [(maxnstates - 1) epsilon <= 1], [rho >= 0], non-negative distances,
    frequencies summing to at most [1] over the active alleles of every site,
    and [L_t <> 0] at every non-final site, the result is [-inf] or a finite
    number [<= 0]: never positive and never NaN. *)
Theorem loglik_nonpositive (k r : R) (Ys : IntegerMatrix) (f : NumericMatrix)
    (gendist : NumericVector) (epsilon rho : R) :
  feasible k r -> 0 <= epsilon <= 1 -> (INR (ncol f) - 1) * epsilon <= 1 ->
  0 <= rho -> (forall t, 0 <= gendist t) ->
  (forall t, (t < nrow Ys)%nat -> Rsum (nstates f t) (at_ f t) <= 1) ->
  (forall t, (S t < nrow Ys)%nat ->
     site_L Ys f epsilon t (state_before k r Ys f gendist epsilon rho t) <> Fin 0) ->
  nonpos_double (loglikelihood_cpp k r Ys f gendist epsilon rho).
Proof.
  intros Hf He Hn Hrho Hg Hs HL.
  rewrite loglikelihood_feasible by exact Hf.
  pose proof (pred_prob_pair k r Ys f gendist epsilon rho Hf ltac:(lra) Hn Hrho Hg HL) as HP.
  assert (Hall : forall n, (n <= nrow Ys)%nat ->
            nonpos_double (loglik (state_before k r Ys f gendist epsilon rho n))).
  { induction n as [|n IH]; intros Hnn.
    - right. exists 0. split; [reflexivity | lra].
    - rewrite state_before_S, loglik_site_step. apply dadd_nonpos; [apply IH; lia|].
      destruct (HP n ltac:(lia)) as [p0 [p1 [H0 [H1 [Hq0 [Hq1 Hsum]]]]]].
      rewrite (site_L_fin _ _ _ _ _ _ _ H0 H1).
      destruct (site_emission_nonneg f n (Ys_row Ys n) epsilon ltac:(lra) Hn) as [Hl0 Hl1].
      destruct (site_emission_le_1 f n (Ys_row Ys n) epsilon He Hn (Hs n ltac:(lia)))
        as [Hu0 Hu1].
      unfold site_lk. apply dlog_unit_nonpos. split; nra. }
  apply Hall. lia.
Qed.

Lemma loglik_nonpositive_witness :
  feasible 1 (1 / 2) /\ 0 <= 0 <= 1 /\ (INR (ncol half_f) - 1) * 0 <= 1 /\
  0 <= 1 /\ (forall t, 0 <= unit_gendist t) /\
  (forall t, (t < nrow two_sites)%nat -> Rsum (nstates half_f t) (at_ half_f t) <= 1) /\
  (forall t, (S t < nrow two_sites)%nat ->
     site_L two_sites half_f 0 t (state_before 1 (1 / 2) two_sites half_f unit_gendist 0 1 t)
     <> Fin 0) /\
  nonpos_double (loglikelihood_cpp 1 (1 / 2) two_sites half_f unit_gendist 0 1).
Proof.
  assert (Hf : feasible 1 (1 / 2)) by (unfold feasible; lra).
  assert (He : 0 <= 0 <= 1) by lra.
  assert (Hn : (INR (ncol half_f) - 1) * 0 <= 1) by lra.
  assert (Hrho : 0 <= 1) by lra.
  assert (Hg : forall t, 0 <= unit_gendist t) by (intros t; unfold unit_gendist; lra).
  assert (Hs : forall t, (t < nrow two_sites)%nat -> Rsum (nstates half_f t) (at_ half_f t) <= 1).
  { intros t _. rewrite nstates_half. simpl. lra. }
  assert (HL : forall t, (S t < nrow two_sites)%nat ->
     site_L two_sites half_f 0 t (state_before 1 (1 / 2) two_sites half_f unit_gendist 0 1 t)
     <> Fin 0).
  { intros t Ht. assert (t = 0%nat) by (simpl in Ht; lia). subst t.
    rewrite (site_L_fin two_sites half_f 0 0
      (state_before 1 (1 / 2) two_sites half_f unit_gendist 0 1 0) (1 - 1 / 2) (1 / 2)
      eq_refl eq_refl), site_lk_half_00.
    cbn [fst snd]. intros E. injection E. lra. }
  split; [exact Hf|]. split; [exact He|]. split; [exact Hn|]. split; [exact Hrho|].
  split; [exact Hg|]. split; [exact Hs|]. split; [exact HL|].
  exact (loglik_nonpositive 1 (1 / 2) two_sites half_f unit_gendist 0 1 Hf He Hn Hrho Hg Hs HL).
Defined.

Lemma transition_product (k k2 r rho rho2 gd : R) :
  k * rho = k2 * rho2 -> transition k r rho gd = transition k2 r rho2 gd.
Proof.
  intros H. unfold transition.
  replace (- k * rho * gd) with (- (k * rho) * gd) by ring.
  replace (- k2 * rho2 * gd) with (- (k2 * rho2) * gd) by ring.
  rewrite H. reflexivity.
Qed.

Lemma site_step_product (k k2 r : R) Ys f gendist (epsilon rho rho2 : R) st idata :
  k * rho = k2 * rho2 ->
  site_step k r Ys f gendist epsilon rho st idata
  = site_step k2 r Ys f gendist epsilon rho2 st idata.
Proof.
  intros H. unfold site_step. rewrite (transition_product k k2 r rho rho2 _ H).
  reflexivity.
Qed.

(** X13: [k] and [rho] enter only through the product [k * rho] in
    [exp(-k * rho * gendist)]: for [k, k2 >= 0] with [k * rho = k2 * rho2]
    the results are equal. *)
Theorem k_rho_product_only (k k2 r : R) (Ys : IntegerMatrix) (f : NumericMatrix)
    (gendist : NumericVector) (epsilon rho rho2 : R) :
  0 <= k -> 0 <= k2 -> k * rho = k2 * rho2 ->
  loglikelihood_cpp k r Ys f gendist epsilon rho
  = loglikelihood_cpp k2 r Ys f gendist epsilon rho2.
Proof.
  intros Hk Hk2 H. unfold loglikelihood_cpp.
  destruct (Rlt_dec r 0); [reflexivity|]. destruct (Rlt_dec 1 r); [reflexivity|].
  destruct (Rlt_dec k 0); [lra|]. destruct (Rlt_dec k2 0); [lra|].
  f_equal. apply fold_left_pointwise. intros st idata.
  apply site_step_product. exact H.
Qed.

Lemma k_rho_product_only_witness :
  0 <= 2 /\ 0 <= 1 /\ 2 * 1 = 1 * 2 /\
  loglikelihood_cpp 2 (1 / 2) two_sites half_f unit_gendist 0 1
  = loglikelihood_cpp 1 (1 / 2) two_sites half_f unit_gendist 0 2.
Proof.
  assert (H1 : 0 <= 2) by lra. assert (H2 : 0 <= 1) by lra.
  assert (H3 : 2 * 1 = 1 * 2) by ring.
  split; [exact H1|]. split; [exact H2|]. split; [exact H3|].
  exact (k_rho_product_only 2 1 (1 / 2) two_sites half_f unit_gendist 0 1 2 H1 H2 H3).
Defined.
